(** * Lloyd's k-means loop of [src/kmeans_cpp_loop.cpp]

    A shallow embedding of the two C++ functions of the repository,
    [find_closest_centers] and [kmeans_cpp_loop], followed by the properties
    that the specification states about them.

    - A [double] is an IEEE 754 binary64 number: the primitive [float] of the
      kernel, whose operations are the machine's.  The program text is written
      once over the signature of the arithmetic it uses ([Num], [NumOrd]), so
      that the same text can also be read over the real numbers, which is how
      the specification describes the data ("real numbers").
    - An [int] is a [Z]; every [int] of the program is bounded by a row count,
      a column count or [max_iter], so no wrap-around is reachable.
    - A [NumericMatrix] is the list of its rows, an [IntegerVector] a list of
      [Z].  A matrix without rows has no column count in this representation
      ([ncol] is 0); every property below is about [n >= 1] observations or
      does not read a column.
    - Rcpp does not check subscripts: an access outside a vector or a matrix
      is undefined behaviour, which the model reports as [Fault].  A matrix
      access is outside as soon as its row or its column is.
    - [all(a == b)] compares two integer vectors of one length, none of whose
      entries is [NA_INTEGER]: it is equality of the two lists.
    - [R::runif] reads the random generator of the R session.  The successive
      values of [floor(R::runif(0, n_obs))] are a stream [rng : nat -> Z], and
      the number of values already consumed is threaded through the loop. *)

From Stdlib Require Import ZArith List Bool Lia Arith.
From Stdlib Require Import Floats Uint63.
From Stdlib Require Import Reals Lra Psatz.
From Stdlib Require Import Permutation.
Import ListNotations.

(** ** Results of code that may leave the bounds of a container *)

Inductive res (A : Type) : Type :=
| Ok (a : A)
| Fault.
Arguments Ok {A} a.
Arguments Fault {A}.

Definition bind {A B : Type} (m : res A) (f : A -> res B) : res B :=
  match m with
  | Ok a => f a
  | Fault => Fault
  end.

Notation "x <- m ;; k" := (bind m (fun x => k))
  (at level 61, m at next level, right associativity).
Notation "' pat <- m ;; k" := (bind m (fun x => match x with pat => k end))
  (at level 61, pat pattern, m at next level, right associativity).

(** [for (int i = lo; i < lo + count; ++i) body], on a state [S]. *)
Fixpoint for_from {S : Type} (lo count : nat) (body : nat -> S -> res S) (s : S)
  : res S :=
  match count with
  | O => Ok s
  | Datatypes.S c => s' <- body lo s ;; for_from (Datatypes.S lo) c body s'
  end.

Definition for_ {S : Type} (n : nat) (body : nat -> S -> res S) (s : S) : res S :=
  for_from 0 n body s.

(** ** Vectors and matrices *)

Definition vget {A : Type} (v : list A) (i : nat) : res A :=
  match nth_error v i with
  | Some a => Ok a
  | None => Fault
  end.

Fixpoint vset {A : Type} (v : list A) (i : nat) (a : A) : res (list A) :=
  match v, i with
  | [], _ => Fault
  | _ :: v', O => Ok (a :: v')
  | x :: v', Datatypes.S i' => v'' <- vset v' i' a ;; Ok (x :: v'')
  end.

Definition matrix (T : Type) : Type := list (list T).

Definition nrow {T : Type} (M : matrix T) : nat := length M.
Definition ncol {T : Type} (M : matrix T) : nat := length (hd [] M).

Definition mget {T : Type} (M : matrix T) (i l : nat) : res T :=
  row <- vget M i ;; vget row l.

Definition mset {T : Type} (M : matrix T) (i l : nat) (a : T) : res (matrix T) :=
  row <- vget M i ;; row' <- vset row l a ;; vset M i row'.

(** An [int] used as a subscript. *)
Definition index (z : Z) : res nat :=
  if (z <? 0)%Z then Fault else Ok (Z.to_nat z).

(** [Matrix(k, n_vars)] and [fill(0.0)]; [IntegerVector(n)]. *)
Definition zeros {T : Type} (z : T) (k n_vars : nat) : matrix T :=
  repeat (repeat z n_vars) k.

(** [is_true(all(a == b))] on two integer vectors of one length. *)
Fixpoint all_eq (a b : list Z) : bool :=
  match a, b with
  | [], [] => true
  | x :: a', y :: b' => (x =? y)%Z && all_eq a' b'
  | _, _ => false
  end.

(** ** The arithmetic of a [double] *)

Class Num (T : Type) : Type := {
  zero : T;
  add : T -> T -> T;
  sub : T -> T -> T;
  mul : T -> T -> T;
  div : T -> T -> T;
  of_int : Z -> T
}.

Class NumOrd (T : Type) : Type := {
  ltb : T -> T -> bool;
  pos_inf : T
}.

(** binary64, as the compiled program computes. *)
#[export] Instance float_Num : Num float := {
  zero := 0%float;
  add := PrimFloat.add;
  sub := PrimFloat.sub;
  mul := PrimFloat.mul;
  div := PrimFloat.div;
  of_int := fun z => PrimFloat.of_uint63 (Uint63.of_Z z)
}.

#[export] Instance float_NumOrd : NumOrd float := {
  ltb := PrimFloat.ltb;
  pos_inf := infinity
}.


(** ** [find_closest_centers] (lines 8-34) *)

Section Assignment.
Context {T : Type} `{Num T} `{NumOrd T}.
Variables X centers : matrix T.

(** lines 19-23: the squared distance of row [i] of [X] to row [j] of
    [centers]. *)
Definition sq_dist_loop (n_vars i j : nat) : res T :=
  for_ n_vars
    (fun l dist =>
       x <- mget X i l ;;
       c <- mget centers j l ;;
       let diff := sub x c in
       Ok (add dist (mul diff diff)))
    zero.

(** lines 15-29: the scan of the centers for observation [i]. *)
Definition closest_loop (n_vars k i : nat) : res (T * Z) :=
  for_ k
    (fun j '(min_dist, best_cluster) =>
       dist <- sq_dist_loop n_vars i j ;;
       if ltb dist min_dist
       then Ok (dist, (Z.of_nat j + 1)%Z)
       else Ok (min_dist, best_cluster))
    (pos_inf, 0%Z).

Definition find_closest_centers : res (list Z) :=
  let n_obs := nrow X in
  let k := nrow centers in
  let n_vars := ncol X in
  for_ n_obs
    (fun i assignments =>
       r <- closest_loop n_vars k i ;;
       vset assignments i (snd r))
    (repeat 0%Z n_obs).
End Assignment.

(** ** [kmeans_cpp_loop] (lines 37-115) *)

(** The return statement that ended the run: the terminal states of the
    specification's state machine.  It is not part of the returned list. *)
Inductive exit_kind : Type :=
| ConvergedByStability
| ConvergedByTolerance
| StoppedAtMaxIter.

Record result (T : Type) : Type := mkResult {
  res_centers : matrix T;
  res_cluster : list Z;
  res_iter : Z;
  res_exit : exit_kind
}.
Arguments mkResult {T} _ _ _ _.
Arguments res_centers {T} _.
Arguments res_cluster {T} _.
Arguments res_iter {T} _.
Arguments res_exit {T} _.

Section Engine.
Context {T : Type} `{Num T} `{NumOrd T}.
Variable X : matrix T.
Variable rng : nat -> Z.

(** lines 66-72: sums and counts per cluster. *)
Definition accumulate (assignments : list Z) (n_obs n_vars : nat)
           (st : matrix T * list Z) : res (matrix T * list Z) :=
  for_ n_obs
    (fun j '(new_centers, counts) =>
       a <- vget assignments j ;;
       cluster_idx <- index (a - 1)%Z ;;
       c <- vget counts cluster_idx ;;
       counts' <- vset counts cluster_idx (c + 1)%Z ;;
       new_centers' <-
         for_ n_vars
           (fun l nc =>
              v <- mget nc cluster_idx l ;;
              x <- mget X j l ;;
              mset nc cluster_idx l (add v x))
           new_centers ;;
       Ok (new_centers', counts'))
    st.

(** lines 75-87: means, and the reseed of an empty cluster; the second
    component counts the values taken from [rng]. *)
Definition finish (counts : list Z) (k n_vars : nat)
           (st : matrix T * nat) : res (matrix T * nat) :=
  for_ k
    (fun j '(new_centers, s) =>
       cnt <- vget counts j ;;
       if (0 <? cnt)%Z
       then
         new_centers' <-
           for_ n_vars
             (fun l nc =>
                v <- mget nc j l ;;
                mset nc j l (div v (of_int cnt)))
             new_centers ;;
         Ok (new_centers', s)
       else
         let rand_idx := rng s in
         new_centers' <-
           for_ n_vars
             (fun l nc =>
                r <- index rand_idx ;;
                x <- mget X r l ;;
                mset nc j l x)
             new_centers ;;
         Ok (new_centers', Datatypes.S s))
    st.

(** lines 63-87: the update step. *)
Definition update_step (assignments : list Z) (n_obs k n_vars s : nat)
  : res (matrix T * nat) :=
  acc <- accumulate assignments n_obs n_vars
           (zeros zero k n_vars, repeat 0%Z k) ;;
  finish (snd acc) k n_vars (fst acc, s).

(** lines 90-96. *)
Definition center_change (new_centers centers : matrix T) (k n_vars : nat)
  : res T :=
  for_ k
    (fun j cc =>
       for_ n_vars
         (fun l cc =>
            a <- mget new_centers j l ;;
            b <- mget centers j l ;;
            let diff := sub a b in
            Ok (add cc (mul diff diff)))
         cc)
    zero.

Variable max_iter : Z.
Variable tol : T.

(** lines 46-114: [fuel] iterations are left, [i] is the loop counter. *)
Fixpoint iterate (n_obs k n_vars : nat) (fuel : nat) (i : Z)
         (centers : matrix T) (assignments old_assignments : list Z)
         (s : nat) {struct fuel} : res (result T * nat) :=
  match fuel with
  | O => Ok (mkResult centers assignments max_iter StoppedAtMaxIter, s)
  | Datatypes.S fuel' =>
      assignments <- find_closest_centers X centers ;;
      if all_eq assignments old_assignments
      then Ok (mkResult centers assignments i ConvergedByStability, s)
      else
        let old_assignments := assignments in
        '(new_centers, s') <- update_step assignments n_obs k n_vars s ;;
        center_change <- center_change new_centers centers k n_vars ;;
        let centers := new_centers in
        if ltb center_change tol
        then Ok (mkResult centers assignments (i + 1)%Z ConvergedByTolerance, s')
        else iterate n_obs k n_vars fuel' (i + 1)%Z
                     centers assignments old_assignments s'
  end.
End Engine.

Definition kmeans_cpp_loop {T : Type} `{Num T} `{NumOrd T}
           (rng : nat -> Z) (s : nat)
           (X centers : matrix T) (max_iter : Z) (tol : T)
  : res (result T * nat) :=
  let n_obs := nrow X in
  let k := nrow centers in
  let n_vars := ncol X in
  iterate X rng max_iter tol n_obs k n_vars (Z.to_nat max_iter) 0%Z
          centers (repeat 0%Z n_obs) (repeat 0%Z n_obs) s.

(** ** Pure restatements of the loops

    The row-wise functions below say what the cell-wise loops of the program
    compute on well-shaped matrices; the refinement lemmas relate the two. *)

Definition shaped {T : Type} (rows cols : nat) (M : matrix T) : Prop :=
  length M = rows /\ Forall (fun r => length r = cols) M.

Section Pure.
Context {T : Type} `{Num T} `{NumOrd T}.

Definition sq_step (dist : T) (p : T * T) : T :=
  let diff := sub (fst p) (snd p) in add dist (mul diff diff).

(** Squared Euclidean distance of two rows, summed left to right from 0. *)
Definition sq_dist (x c : list T) : T :=
  fold_left sq_step (combine x c) zero.

Definition scan_step (x : list T) (j : nat) (c : list T) (st : T * Z) : T * Z :=
  let dist := sq_dist x c in
  if ltb dist (fst st) then (dist, (Z.of_nat j + 1)%Z) else st.

(** The scan of the centers [cs], the first of which has index [j]. *)
Fixpoint scan (x : list T) (cs : matrix T) (j : nat) (st : T * Z) : T * Z :=
  match cs with
  | [] => st
  | c :: cs' => scan x cs' (S j) (scan_step x j c st)
  end.

Definition nearest (centers : matrix T) (x : list T) : Z :=
  snd (scan x centers 0 (pos_inf, 0%Z)).

Definition vec_add (u v : list T) : list T :=
  map (fun p => add (fst p) (snd p)) (combine u v).

(** Coordinate-wise sum of rows of width [d], in the order of the list. *)
Definition vec_sum (d : nat) (rows : matrix T) : list T :=
  fold_left vec_add rows (repeat zero d).

(** The observations assigned to cluster [j] (0-based), in input order;
    the assignment vector holds [j + 1]. *)
Definition members (X : matrix T) (A : list Z) (j : nat) : matrix T :=
  map fst (filter (fun p => (snd p =? Z.of_nat j + 1)%Z) (combine X A)).

(** Arithmetic mean: the coordinate-wise sum divided by the count. *)
Definition cluster_mean (d : nat) (rows : matrix T) : list T :=
  map (fun s => div s (of_int (Z.of_nat (length rows)))) (vec_sum d rows).

Definition is_empty (rows : matrix T) : bool :=
  match rows with
  | [] => true
  | _ :: _ => false
  end.

(** Number of empty clusters among the first [j]: the number of values the
    update step has taken from the random source when it reaches cluster [j]. *)
Definition empties_before (X : matrix T) (A : list Z) (j : nat) : nat :=
  length (filter (fun i => is_empty (members X A i)) (seq 0 j)).

Definition new_center (X : matrix T) (rng : nat -> Z) (A : list Z)
           (d s j : nat) : list T :=
  match members X A j with
  | [] => nth (Z.to_nat (rng (s + empties_before X A j))) X []
  | m => cluster_mean d m
  end.

(** The update step as a function: the new centers, and the number of
    values of [rng] consumed so far. *)
Definition update (X : matrix T) (rng : nat -> Z) (A : list Z)
           (k d s : nat) : matrix T * nat :=
  (map (new_center X rng A d s) (seq 0 k), s + empties_before X A k).

(** The clustering objective of the specification (section 8): the summed
    squared distance of every observation to the center of its cluster. *)
Definition objective (X : matrix T) (A : list Z) (C : matrix T) : T :=
  fold_left
    (fun acc p => add acc (sq_dist (fst p) (nth (Z.to_nat (snd p - 1)) C [])))
    (combine X A) zero.

Definition sq_change (cc : T) (rows : list T * list T) : T :=
  fold_left sq_step (combine (fst rows) (snd rows)) cc.

(** Summed squared movement of all centers. *)
Definition change (new_centers centers : matrix T) : T :=
  fold_left sq_change (combine new_centers centers) zero.
End Pure.

(** ** binary64: predicates *)

(** Not a negative number: a NaN, or a value whose sign bit is clear. *)
Definition sf_nonneg (x : spec_float) : Prop :=
  match x with
  | S754_nan => True
  | S754_zero s | S754_infinity s | S754_finite s _ _ => s = false
  end.

Definition nonneg (x : float) : Prop := sf_nonneg (Prim2SF x).

Definition sf_sign_in (sx : bool) (x : spec_float) : Prop :=
  match x with
  | S754_nan => True
  | S754_zero s | S754_infinity s | S754_finite s _ _ => s = sx
  end.

Definition sf_finite (x : spec_float) : Prop :=
  match x with
  | S754_zero _ | S754_finite _ _ _ => True
  | S754_infinity _ | S754_nan => False
  end.

Definition finite_row (x : list float) : Prop :=
  Forall (fun v => is_finite v = true) x.

(** Equality of two matrices of doubles, entry by entry, as [==] compares. *)
Definition same_matrix (M N : matrix float) : Prop :=
  Forall2 (Forall2 (fun a b => (a =? b)%float = true)) M N.

(** What the update step computes for an entry [x] of a cluster with the
    single member [x]: the sum [0.0 + x], divided by the count [1]. *)
Definition norm (x : float) : float := ((0 + x) / 1)%float.

Definition mant_one : positive := 4503599627370496%positive.

Definition huge : float := 0x1p+600%float.

(** ** Real numbers: sums *)




(** ** Derived functions *)

(** The centers of an update without reseed: the mean of every cluster. *)
Definition means {T : Type} `{Num T} (X : matrix T) (A : list Z) (k d : nat)
  : matrix T :=
  map (fun j => cluster_mean d (members X A j)) (seq 0 k).

(** [A] is the output of the assignment step on [X] and [C], has one entry
    per observation, and holds a 1-based index in [[1, k]] for every
    observation that has a center at a squared distance comparing below
    [R_PosInf]. *)
Definition one_based {T : Type} `{Num T} `{NumOrd T}
           (X C : matrix T) (n k : nat) (A : list Z) : Prop :=
  find_closest_centers X C = Ok A /\
  length A = n /\
  forall i x a,
    nth_error X i = Some x -> nth_error A i = Some a ->
    (exists c, In c C /\ ltb (sq_dist x c) pos_inf = true) ->
    (1 <= a <= Z.of_nat k)%Z.

(** The assignment vector of the observations [X] under the centers [C]. *)
Definition on_centers (C X : matrix float) : list Z := map (nearest C) X.

(** Two rows differ when [!=] holds for one of their coordinates. *)
Definition rows_differ (x y : list float) : bool :=
  existsb (fun p => negb (fst p =? snd p)%float) (combine x y).

Definition pairwise_distinct (X : matrix float) : Prop :=
  forall i j x y,
    i <> j -> nth_error X i = Some x -> nth_error X j = Some y ->
    rows_differ x y = true.

(** The state [(min_dist, best_cluster)] of the scan of lines 15-29 after the
    centers [pre], on binary64: [best_cluster] is 0 with [min_dist] still
    [R_PosInf], or names the center whose finite distance [min_dist] is; no
    center of [pre] is below [min_dist], and none before the named one is at
    or below it. *)
Definition first_minimum (x : list float) (pre : matrix float)
           (st : float * Z) : Prop :=
  ((snd st = 0%Z /\ fst st = infinity) \/
   (exists c, (1 <= snd st)%Z /\
              nth_error pre (Z.to_nat (snd st - 1)) = Some c /\
              fst st = sq_dist x c /\
              is_finite (sq_dist x c) = true)) /\
  (forall c', In c' pre -> (sq_dist x c' <? fst st)%float = false) /\
  (forall j' c', (Z.of_nat j' < snd st - 1)%Z -> nth_error pre j' = Some c' ->
                 (sq_dist x c' <=? fst st)%float = false).

(** ** Inputs used below *)

Definition X_two_groups : matrix float :=
  [[0; 0]; [0; 1]; [10; 0]; [10; 1]]%float.

Definition C_two_groups : matrix float := [[0; 0]; [10; 0]]%float.

(** ** The sentences of the specification that the program does not satisfy *)

(** The sentence of the specification on the assignment primitive, as it is
    written: a vector of length [n] with every entry in [[0, k)]. *)
Definition zero_based_assignment (X C : matrix float) : Prop :=
  exists A, find_closest_centers X C = Ok A /\
            length A = nrow X /\
            Forall (fun a => (0 <= a < Z.of_nat (nrow C))%Z) A.

(** The second half of the specification's sentence on [tol <= 0], as it is
    written: equal old and new center matrices make the tolerance test fire. *)
Definition fires_on_equal_centers (tol : float) : Prop :=
  forall (C : matrix float) (k d : nat) (cc : float),
    center_change C C k d = Ok cc -> ltb cc tol = true.


(** The idempotence sentence of the specification, as it is written: after
    a run that left through the tolerance test, one more iteration from the
    returned centers leaves them unchanged. *)
Definition idempotent_once_tolerance_held : Prop :=
  forall (X C : matrix float) (max_iter : Z) (tol : float)
         (rng rng2 : nat -> Z) (s s2 : nat) (r r2 : result float)
         (s' s2' : nat),
    kmeans_cpp_loop rng s X C max_iter tol = Ok (r, s') ->
    res_exit r = ConvergedByTolerance ->
    kmeans_cpp_loop rng2 s2 X (res_centers r) 1 tol = Ok (r2, s2') ->
    res_centers r2 = res_centers r.

(** The sentence of the specification, as it is written: the result is
    determined by [(X, C, max_iter, tol)] alone. *)
Definition pure_in_its_arguments : Prop :=
  forall (X C : matrix float) (max_iter : Z) (tol : float)
         (rng1 rng2 : nat -> Z) (s1 s2 : nat) (r1 r2 : result float)
         (s1' s2' : nat),
    kmeans_cpp_loop rng1 s1 X C max_iter tol = Ok (r1, s1') ->
    kmeans_cpp_loop rng2 s2 X C max_iter tol = Ok (r2, s2') ->
    r1 = r2.

(** The scenario of the specification, as it is written: [k = n], pairwise
    distinct observations, one center on each observation. *)
Definition converges_at_once : Prop :=
  forall (X C : matrix float) (n d : nat) (max_iter : Z) (tol : float)
         (rng : nat -> Z) (s : nat) (r : result float) (s' : nat),
    shaped n d X -> 1 <= n -> Permutation C X -> pairwise_distinct X ->
    (1 <= max_iter)%Z ->
    kmeans_cpp_loop rng s X C max_iter tol = Ok (r, s') ->
    res_iter r = 1%Z /\ same_matrix (res_centers r) C.

(** * Properties *)

(** ** Loops and containers: basic facts *)

Lemma bind_ok {A B : Type} (m : res A) (f : A -> res B) (b : B) :
  bind m f = Ok b -> exists a, m = Ok a /\ f a = Ok b.
Proof. destruct m as [a|]; simpl; intros E; [eauto | discriminate]. Qed.

(** Invariant rule, total: the body succeeds under the invariant. *)
Lemma for_from_inv {S : Type} (P : nat -> S -> Prop) (body : nat -> S -> res S) :
  forall count lo s,
    P lo s ->
    (forall i st, lo <= i < lo + count -> P i st ->
                  exists st', body i st = Ok st' /\ P (Datatypes.S i) st') ->
    exists s', for_from lo count body s = Ok s' /\ P (lo + count) s'.
Proof.
  induction count as [|c IH]; intros lo s H0 Hstep.
  - exists s. rewrite Nat.add_0_r. simpl; auto.
  - destruct (Hstep lo s) as (s1 & E1 & H1); [lia | assumption |].
    destruct (IH (Datatypes.S lo) s1 H1) as (s' & E & HP).
    + intros i st Hi. apply Hstep. lia.
    + exists s'. simpl. rewrite E1. simpl.
      replace (lo + Datatypes.S c) with (Datatypes.S lo + c) by lia. auto.
Qed.

(** Invariant rule, partial: whatever the body does, if the loop ends. *)
Lemma for_from_inv_ok {S : Type} (P : nat -> S -> Prop) (body : nat -> S -> res S) :
  forall count lo s s',
    P lo s ->
    (forall i st st', lo <= i < lo + count -> P i st ->
                      body i st = Ok st' -> P (Datatypes.S i) st') ->
    for_from lo count body s = Ok s' ->
    P (lo + count) s'.
Proof.
  induction count as [|c IH]; intros lo s s' H0 Hstep E.
  - simpl in E. injection E as <-. now rewrite Nat.add_0_r.
  - simpl in E. apply bind_ok in E. destruct E as (s1 & E1 & E).
    replace (lo + Datatypes.S c) with (Datatypes.S lo + c) by lia.
    apply (IH (Datatypes.S lo) s1); auto.
    + apply (Hstep lo s); auto. lia.
    + intros i st st' Hi. apply Hstep. lia.
Qed.

(** [loop_inv P as pat]: runs the loop of the goal under the invariant [P]. *)
Tactic Notation "loop_inv" constr(P) "as" simple_intropattern(pat) :=
  match goal with
  | |- context [@for_from ?S ?lo ?n ?body ?s] =>
      destruct (@for_from_inv S P body n lo s) as pat
  end.

Lemma vget_ok {A : Type} (v : list A) (i : nat) (a : A) :
  vget v i = Ok a <-> nth_error v i = Some a.
Proof.
  unfold vget. destruct (nth_error v i); split; intros E;
    try discriminate; congruence.
Qed.

Lemma vget_app {A : Type} (xs ys : list A) (y : A) :
  vget (xs ++ y :: ys) (length xs) = Ok y.
Proof.
  apply vget_ok. rewrite nth_error_app2 by lia.
  now rewrite Nat.sub_diag.
Qed.

Lemma vset_app {A : Type} (xs ys : list A) (y a : A) :
  vset (xs ++ y :: ys) (length xs) a = Ok (xs ++ a :: ys).
Proof.
  induction xs as [|x xs IH]; simpl; auto. now rewrite IH.
Qed.

Lemma vset_ok {A : Type} (v : list A) (i : nat) (a : A) (v' : list A) :
  vset v i a = Ok v' ->
  exists xs y ys, v = xs ++ y :: ys /\ length xs = i /\ v' = xs ++ a :: ys.
Proof.
  revert i v'. induction v as [|x v IH]; intros [|i] v' E; simpl in E;
    try discriminate.
  - injection E as <-. exists [], x, v. auto.
  - apply bind_ok in E. destruct E as (v'' & E & E').
    injection E' as <-. destruct (IH _ _ E) as (xs & y & ys & -> & L & ->).
    exists (x :: xs), y, ys. simpl. auto.
Qed.

Lemma vset_length {A : Type} (v : list A) (i : nat) (a : A) (v' : list A) :
  vset v i a = Ok v' -> length v' = length v /\ i < length v.
Proof.
  intros E. apply vset_ok in E. destruct E as (xs & y & ys & -> & <- & ->).
  rewrite !length_app. simpl. lia.
Qed.

Lemma all_eq_true (a b : list Z) : all_eq a b = true <-> a = b.
Proof.
  revert b. induction a as [|x a IH]; intros [|y b]; simpl; split;
    intros E; try discriminate; auto.
  - apply andb_true_iff in E. destruct E as (E1 & E2).
    apply Z.eqb_eq in E1. apply IH in E2. congruence.
  - injection E as -> ->. rewrite Z.eqb_refl. simpl. now apply IH.
Qed.

Lemma shaped_row {T : Type} {n d : nat} {M : matrix T} {i : nat} {r : list T} :
  shaped n d M -> nth_error M i = Some r -> length r = d.
Proof.
  intros (_ & F) E. rewrite Forall_forall in F. apply F.
  eapply nth_error_In; eauto.
Qed.

Lemma shaped_ncol {T : Type} {n d : nat} {M : matrix T} :
  shaped n d M -> 1 <= n -> ncol M = d.
Proof.
  intros (L & F) Hn. unfold ncol. destruct M as [|r M]; simpl in *; [lia|].
  now inversion F.
Qed.

Lemma nth_error_lt {A : Type} (v : list A) (i : nat) :
  i < length v -> exists a, nth_error v i = Some a.
Proof.
  intros L. destruct (nth_error v i) as [a|] eqn:E; eauto.
  apply nth_error_None in E. lia.
Qed.

Lemma firstn_snoc {A : Type} {v : list A} {i : nat} {a : A} :
  nth_error v i = Some a -> firstn (S i) v = firstn i v ++ [a].
Proof.
  revert i. induction v as [|x v IH]; intros [|i] E; simpl in *;
    try discriminate.
  - now injection E as ->.
  - f_equal. now apply IH.
Qed.

Lemma nth_error_combine {A B : Type} {u : list A} {v : list B} {i a b} :
  nth_error u i = Some a -> nth_error v i = Some b ->
  nth_error (combine u v) i = Some (a, b).
Proof.
  revert v i. induction u as [|x u IH]; intros [|y v] [|i] E1 E2;
    simpl in *; try discriminate; auto. congruence.
Qed.

Lemma mget_row {T : Type} {M : matrix T} {i : nat} (l : nat) {r : list T} :
  nth_error M i = Some r -> mget M i l = vget r l.
Proof. intros E. unfold mget, vget at 1. now rewrite E. Qed.

(** ** The assignment step computes [nearest] on every row *)

Section AssignmentRefinement.
Context {T : Type} `{Num T} `{NumOrd T}.

Lemma sq_dist_loop_ok (X C : matrix T) (d i j : nat) (x c : list T) :
  nth_error X i = Some x -> nth_error C j = Some c ->
  length x = d -> length c = d ->
  sq_dist_loop X C d i j = Ok (sq_dist x c).
Proof.
  intros Ex Ec Lx Lc. unfold sq_dist_loop, for_.
  loop_inv (fun l dist => dist = fold_left sq_step (firstn l (combine x c)) zero)
    as (r & E & P).
  - reflexivity.
  - intros l st Hl ->.
    destruct (nth_error_lt x l) as (a & Ea); [lia|].
    destruct (nth_error_lt c l) as (b & Eb); [lia|].
    rewrite (mget_row l Ex), (mget_row l Ec).
    apply vget_ok in Ea as Ea'. apply vget_ok in Eb as Eb'.
    rewrite Ea', Eb'. cbn [bind]. eexists; split; [reflexivity|].
    rewrite (firstn_snoc (nth_error_combine Ea Eb)).
    now rewrite fold_left_app.
  - rewrite E, P. simpl. rewrite firstn_all2; [reflexivity|].
    rewrite length_combine. lia.
Qed.

Lemma scan_app (x : list T) (cs : matrix T) (c : list T) :
  forall j st,
    scan x (cs ++ [c]) j st = scan_step x (j + length cs) c (scan x cs j st).
Proof.
  induction cs as [|c0 cs IH]; intros j st; simpl.
  - now rewrite Nat.add_0_r.
  - rewrite IH. f_equal. lia.
Qed.

Lemma closest_loop_ok (X C : matrix T) (n k d i : nat) (x : list T) :
  shaped n d X -> shaped k d C -> nth_error X i = Some x ->
  closest_loop X C d k i = Ok (scan x C 0 (pos_inf, 0%Z)).
Proof.
  intros SX SC Ex. unfold closest_loop, for_.
  loop_inv (fun j st => st = scan x (firstn j C) 0 (pos_inf, 0%Z))
    as (r & E & P).
  - reflexivity.
  - intros j st Hj ->.
    destruct (nth_error_lt C j) as (c & Ec); [destruct SC; lia|].
    destruct (scan x (firstn j C) 0 (pos_inf, 0%Z)) as (md, b) eqn:Es.
    rewrite (sq_dist_loop_ok X C d i j x c Ex Ec (shaped_row SX Ex) (shaped_row SC Ec)).
    cbn [bind]. rewrite (firstn_snoc Ec), scan_app, Es.
    unfold scan_step. cbn [fst snd].
    rewrite length_firstn, Nat.min_l by (destruct SC; lia).
    destruct (ltb (sq_dist x c) md); eexists; split; reflexivity.
  - rewrite E, P. simpl. rewrite firstn_all2; [reflexivity|].
    destruct SC; lia.
Qed.

Lemma find_closest_centers_ok (X C : matrix T) (n k d : nat) :
  shaped n d X -> shaped k d C ->
  find_closest_centers X C = Ok (map (nearest C) X).
Proof.
  intros SX SC. unfold find_closest_centers, for_.
  assert (Ln : nrow X = n) by (destruct SX; assumption).
  assert (Lk : nrow C = k) by (destruct SC; assumption).
  rewrite Ln, Lk. unfold nrow in Ln, Lk.
  loop_inv (fun i A => A = map (nearest C) (firstn i X) ++ repeat 0%Z (n - i))
    as (r & E & P).
  - simpl. now rewrite Nat.sub_0_r.
  - intros i st Hi ->.
    destruct (nth_error_lt X i) as (x & Ex); [lia|].
    rewrite (shaped_ncol SX) by lia.
    rewrite (closest_loop_ok X C n k d i x SX SC Ex). cbn [bind].
    replace (n - i) with (S (n - S i)) by lia. cbn [repeat].
    pose proof (vset_app (map (nearest C) (firstn i X)) (repeat 0%Z (n - S i))
                         0%Z (snd (scan x C 0 (pos_inf, 0%Z)))) as V.
    rewrite length_map, length_firstn, Nat.min_l in V by lia.
    rewrite V. eexists; split; [reflexivity|]. unfold nearest.
    rewrite (firstn_snoc Ex), map_app, <- app_assoc. reflexivity.
  - rewrite E, P. simpl. rewrite Nat.sub_diag, firstn_all2 by lia.
    simpl. now rewrite app_nil_r.
Qed.
End AssignmentRefinement.

(** ** The shape of the center matrix is kept *)

Lemma mset_shaped {T : Type} (k d : nat) (M M' : matrix T) (i l : nat) (a : T) :
  mset M i l a = Ok M' -> shaped k d M -> shaped k d M'.
Proof.
  unfold mset. intros E (L & F).
  apply bind_ok in E. destruct E as (row & Er & E).
  apply bind_ok in E. destruct E as (row' & Er' & E).
  apply vset_length in Er'. apply vset_ok in E.
  destruct E as (xs & y & ys & -> & Li & ->).
  apply vget_ok in Er. rewrite nth_error_app2, Li, Nat.sub_diag in Er by lia.
  injection Er as ->. split.
  - rewrite length_app in *. simpl in *. lia.
  - apply Forall_app in F. destruct F as (F1 & F2).
    inversion F2 as [|r rs Lr F3]; subst.
    apply Forall_app. split; [assumption|]. constructor; [lia | assumption].
Qed.

Lemma zeros_shaped {T : Type} (z : T) (k d : nat) : shaped k d (zeros z k d).
Proof.
  unfold zeros. split; [apply repeat_length|].
  apply Forall_forall. intros r Hr. apply repeat_spec in Hr. subst.
  apply repeat_length.
Qed.

Section Shapes.
Context {T : Type} `{Num T} `{NumOrd T}.
Variable X : matrix T.
Variable rng : nat -> Z.

Lemma accumulate_shaped (A : list Z) (n k d : nat) (st st' : matrix T * list Z) :
  accumulate X A n d st = Ok st' -> shaped k d (fst st) -> shaped k d (fst st').
Proof.
  unfold accumulate, for_. intros E S0.
  apply (for_from_inv_ok (fun _ (st : matrix T * list Z) => shaped k d (fst st)))
    in E; auto.
  intros j (nc, counts) st1 _ Snc E1. cbn [fst] in *.
  apply bind_ok in E1. destruct E1 as (a & _ & E1).
  apply bind_ok in E1. destruct E1 as (ci & _ & E1).
  apply bind_ok in E1. destruct E1 as (c & _ & E1).
  apply bind_ok in E1. destruct E1 as (counts' & _ & E1).
  apply bind_ok in E1. destruct E1 as (nc' & Enc & E1).
  injection E1 as <-. cbn [fst].
  apply (for_from_inv_ok (fun _ nc => shaped k d nc)) in Enc; auto.
  intros l m m' _ Sm Em.
  apply bind_ok in Em. destruct Em as (v & _ & Em).
  apply bind_ok in Em. destruct Em as (x & _ & Em).
  eapply mset_shaped; eauto.
Qed.

Lemma finish_shaped (counts : list Z) (k d : nat) (st st' : matrix T * nat) :
  finish X rng counts k d st = Ok st' ->
  shaped k d (fst st) -> shaped k d (fst st').
Proof.
  unfold finish, for_. intros E S0.
  apply (for_from_inv_ok (fun _ (st : matrix T * nat) => shaped k d (fst st)))
    in E; auto.
  intros j (nc, s) st1 _ Snc E1. cbn [fst] in *. cbv zeta in E1.
  apply bind_ok in E1. destruct E1 as (c & _ & E1).
  destruct (0 <? c)%Z;
    apply bind_ok in E1; destruct E1 as (nc' & Enc & E1);
      injection E1 as <-; cbn [fst];
        apply (for_from_inv_ok (fun _ nc => shaped k d nc)) in Enc; auto;
          intros l m m' _ Sm Em.
  - apply bind_ok in Em. destruct Em as (v & _ & Em).
    eapply mset_shaped; eauto.
  - apply bind_ok in Em. destruct Em as (r & _ & Em).
    apply bind_ok in Em. destruct Em as (x & _ & Em).
    eapply mset_shaped; eauto.
Qed.

Lemma update_step_shaped (A : list Z) (n k d s : nat) (N : matrix T) (s' : nat) :
  update_step X rng A n k d s = Ok (N, s') -> shaped k d N.
Proof.
  unfold update_step. intros E.
  apply bind_ok in E. destruct E as (acc & Eacc & E).
  apply accumulate_shaped with (k := k) in Eacc; [|apply zeros_shaped].
  apply finish_shaped with (k := k) in E; auto.
Qed.

(** Once the loop body has run, the returned cluster vector is the output of
    the assignment step on [X] and a center matrix of the initial shape. *)
Lemma iterate_cluster_inv (max_iter : Z) (tol : T) (n k d : nat) :
  forall fuel i C A old s r s',
    shaped k d C ->
    iterate X rng max_iter tol n k d (S fuel) i C A old s = Ok (r, s') ->
    exists C', shaped k d C' /\ find_closest_centers X C' = Ok (res_cluster r).
Proof.
  induction fuel as [|fuel IH]; intros i C A old s r s' SC E;
    cbn [iterate] in E; apply bind_ok in E; destruct E as (A' & EA & E);
      (destruct (all_eq A' old);
       [injection E as <- <-; exists C; split; [exact SC | exact EA]|]);
      apply bind_ok in E; destruct E as ((N, s1) & EU & E);
        apply bind_ok in E; destruct E as (cc & _ & E);
          (destruct (ltb cc tol);
           [injection E as <- <-; exists C; split; [exact SC | exact EA]|]).
  - injection E as <- <-. exists C. split; [exact SC | exact EA].
  - apply update_step_shaped in EU.
    exact (IH (i + 1)%Z N A' A' s1 r s' EU E).
Qed.
End Shapes.

(** ** Range of the assignment vector *)

Section AssignmentRange.
Context {T : Type} `{Num T} `{NumOrd T}.
Variable x : list T.

Lemma scan_range (cs : matrix T) :
  forall j st,
    (0 <= snd st <= Z.of_nat j)%Z ->
    (0 <= snd (scan x cs j st) <= Z.of_nat (j + length cs))%Z.
Proof.
  induction cs as [|c cs IH]; intros j st Hst; simpl.
  - now rewrite Nat.add_0_r.
  - replace (j + S (length cs)) with (S j + length cs) by lia.
    apply IH. unfold scan_step.
    destruct (ltb (sq_dist x c) (fst st)); simpl; lia.
Qed.

Lemma scan_keeps_choice (cs : matrix T) :
  forall j st, (1 <= snd st)%Z -> (1 <= snd (scan x cs j st))%Z.
Proof.
  induction cs as [|c cs IH]; intros j st Hst; simpl; auto.
  apply IH. unfold scan_step.
  destruct (ltb (sq_dist x c) (fst st)); simpl; lia.
Qed.

(** [best_cluster] leaves 0 at the first center whose distance compares
    below [R_PosInf]. *)
Lemma scan_finds (cs : matrix T) :
  forall j b,
    (exists c, In c cs /\ ltb (sq_dist x c) pos_inf = true) ->
    (1 <= snd (scan x cs j (pos_inf, b)))%Z.
Proof.
  induction cs as [|c cs IH]; intros j b (c0 & Hin & Hlt); simpl in *.
  - contradiction.
  - unfold scan_step at 1. cbn [fst].
    destruct (ltb (sq_dist x c) pos_inf) eqn:E.
    + apply scan_keeps_choice. simpl. lia.
    + apply IH. exists c0. split; auto.
      destruct Hin as [->|Hin]; [congruence | assumption].
Qed.

(** ... and stays 0 when there is no such center. *)
Lemma scan_misses (cs : matrix T) :
  forall j b,
    (forall c, In c cs -> ltb (sq_dist x c) pos_inf = false) ->
    scan x cs j (pos_inf, b) = (pos_inf, b).
Proof.
  induction cs as [|c cs IH]; intros j b Hall; simpl; auto.
  unfold scan_step. cbn [fst]. rewrite (Hall c) by (now left).
  apply IH. intros c' Hc'. apply Hall. now right.
Qed.
End AssignmentRange.

(** C1, counterexample: one observation, one center placed on it.  The
    primitive stores [j + 1 = 1], which is not below [k = 1]. *)
Lemma assignment_is_not_zero_based :
  ~ zero_based_assignment [[0%float]] [[0%float]].
Proof.
  intros (A & E & _ & F). vm_compute in E. injection E as <-.
  inversion F as [|a l Ha _]; subst. simpl in Ha. lia.
Qed.

Lemma nearest_one_based {T : Type} `{Num T} `{NumOrd T}
      (n k d : nat) (X C : matrix T) :
  shaped n d X -> shaped k d C -> one_based X C n k (map (nearest C) X).
Proof.
  intros SX SC. split; [|split].
  - eapply find_closest_centers_ok; eauto.
  - rewrite length_map. now destruct SX.
  - intros i x a Ex Ea Hc. rewrite nth_error_map, Ex in Ea.
    injection Ea as <-. unfold nearest. split.
    + now apply scan_finds.
    + pose proof (scan_range x C 0 (pos_inf, 0%Z)) as R. simpl in R.
      destruct SC as (<- & _). apply R. lia.
Qed.

(** C1, as amended: on well-shaped matrices the assignment primitive returns
    a vector of length [n], and the entry of every observation that has a
    center at a squared distance comparing below [R_PosInf] is a 1-based
    index in [[1, k]]; the cluster vector that a run of at least one
    iteration returns is such an output of the primitive, on [X] and a
    center matrix of [k] rows.  It holds in any arithmetic, binary64
    included. *)
Theorem assignment_entries_one_based
        {T : Type} `{Num T} `{NumOrd T} (n k d : nat) (X C : matrix T) :
  shaped n d X -> shaped k d C ->
  (exists A, one_based X C n k A) /\
  (forall rng s max_iter tol r s',
      1 <= n -> (1 <= max_iter)%Z ->
      kmeans_cpp_loop rng s X C max_iter tol = Ok (r, s') ->
      exists C', shaped k d C' /\ one_based X C' n k (res_cluster r)).
Proof.
  intros SX SC. split.
  - exists (map (nearest C) X). now apply nearest_one_based with (d := d).
  - intros rng s max_iter tol r s' Hn Hm E. unfold kmeans_cpp_loop in E.
    assert (Ek : nrow C = k) by (now destruct SC).
    rewrite Ek, (shaped_ncol SX Hn) in E.
    destruct (Z.to_nat max_iter) as [|fuel] eqn:Ef; [lia|].
    destruct (iterate_cluster_inv X rng max_iter tol (nrow X) k d
                fuel 0%Z C _ _ s r s' SC E) as (C' & SC' & EC').
    exists C'. split; [exact SC'|].
    rewrite (find_closest_centers_ok X C' n k d SX SC') in EC'.
    injection EC' as <-. now apply nearest_one_based with (d := d).
Qed.

Lemma assignment_entries_one_based_witness :
  (exists A, one_based X_two_groups C_two_groups 4 2 A) /\
  (forall rng s max_iter tol r s',
      1 <= 4 -> (1 <= max_iter)%Z ->
      kmeans_cpp_loop rng s X_two_groups C_two_groups max_iter tol = Ok (r, s') ->
      exists C', shaped 2 2 C' /\ one_based X_two_groups C' 4 2 (res_cluster r)).
Proof.
  apply (assignment_entries_one_based 4 2 2 X_two_groups C_two_groups).
  - split; [reflexivity | repeat constructor].
  - split; [reflexivity | repeat constructor].
Defined.

(** ** Cell-wise loops over one row of a matrix *)

Lemma mget_cell {T : Type} (pre post : matrix T) (done rest : list T) (v : T) :
  mget (pre ++ (done ++ v :: rest) :: post) (length pre) (length done) = Ok v.
Proof. unfold mget. rewrite vget_app. cbn [bind]. apply vget_app. Qed.

Lemma mset_cell {T : Type} (pre post : matrix T) (done rest : list T) (v a : T) :
  mset (pre ++ (done ++ v :: rest) :: post) (length pre) (length done) a =
  Ok (pre ++ (done ++ a :: rest) :: post).
Proof.
  unfold mset. rewrite vget_app. cbn [bind]. rewrite vset_app. cbn [bind].
  apply vset_app.
Qed.

Lemma vget_at {A : Type} (xs ys : list A) (y : A) (i : nat) :
  length xs = i -> vget (xs ++ y :: ys) i = Ok y.
Proof. intros <-. apply vget_app. Qed.

Lemma vset_at {A : Type} (xs ys : list A) (y a : A) (i : nat) :
  length xs = i -> vset (xs ++ y :: ys) i a = Ok (xs ++ a :: ys).
Proof. intros <-. apply vset_app. Qed.

Lemma mget_at {T : Type} (pre post : matrix T) (done rest : list T) (v : T)
      (i l : nat) :
  length pre = i -> length done = l ->
  mget (pre ++ (done ++ v :: rest) :: post) i l = Ok v.
Proof. intros <- <-. apply mget_cell. Qed.

Lemma mset_at {T : Type} (pre post : matrix T) (done rest : list T) (v a : T)
      (i l : nat) :
  length pre = i -> length done = l ->
  mset (pre ++ (done ++ v :: rest) :: post) i l a =
  Ok (pre ++ (done ++ a :: rest) :: post).
Proof. intros <- <-. apply mset_cell. Qed.

(** A loop whose step [l] replaces cell [l] of row [length pre] turns the row
    [done ++ todo] into [done ++ news]. *)
Lemma row_loop {T : Type} (B : nat -> matrix T -> res (matrix T))
      (pre post : matrix T) :
  forall (todo news done : list T),
    length news = length todo ->
    (forall l d1 v v' t1,
        length d1 = length done + l ->
        nth_error todo l = Some v -> nth_error news l = Some v' ->
        B (length done + l) (pre ++ (d1 ++ v :: t1) :: post) =
        Ok (pre ++ (d1 ++ v' :: t1) :: post)) ->
    for_from (length done) (length todo) B (pre ++ (done ++ todo) :: post) =
    Ok (pre ++ (done ++ news) :: post).
Proof.
  induction todo as [|v todo IH]; intros news done L HB.
  - destruct news; [|discriminate]. reflexivity.
  - destruct news as [|v' news]; [discriminate|]. cbn [for_from length].
    pose proof (HB 0 done v v' todo) as E0. rewrite Nat.add_0_r in E0.
    rewrite E0 by reflexivity. cbn [bind].
    replace (done ++ v' :: todo) with ((done ++ [v']) ++ todo)
      by (now rewrite <- app_assoc).
    replace (done ++ v' :: news) with ((done ++ [v']) ++ news)
      by (now rewrite <- app_assoc).
    replace (S (length done)) with (length (done ++ [v']))
      by (rewrite length_app; simpl; lia).
    apply IH.
    + simpl in L. lia.
    + intros l d1 v0 v0' t1 Ld1 E1 E2.
      rewrite length_app in *. simpl in *.
      replace (length done + 1 + l) with (length done + S l) in * by lia.
      apply HB; auto.
Qed.

Lemma map_seq_split {A : Type} (f : nat -> A) (k i : nat) :
  i < k ->
  map f (seq 0 k) = map f (seq 0 i) ++ f i :: map f (seq (S i) (k - S i)).
Proof.
  intros L. replace k with (i + S (k - S i)) at 1 by lia.
  rewrite seq_app, map_app. reflexivity.
Qed.

Lemma map_seq_update {A : Type} (f : nat -> A) (k i : nat) (v : A) :
  i < k ->
  map f (seq 0 i) ++ v :: map f (seq (S i) (k - S i)) =
  map (fun j => if j =? i then v else f j) (seq 0 k).
Proof.
  intros L. rewrite (map_seq_split (fun j => if j =? i then v else f j) k i L).
  rewrite Nat.eqb_refl. f_equal; [|f_equal]; apply map_ext_in; intros j Hj;
    apply in_seq in Hj; destruct (Nat.eqb_spec j i); auto; lia.
Qed.

Lemma repeat_map_seq {A : Type} (a : A) (k : nat) :
  repeat a k = map (fun _ => a) (seq 0 k).
Proof.
  generalize 0. induction k as [|k IH]; intros lo; simpl; auto.
  now rewrite <- IH.
Qed.

Lemma combine_app_eq {A B : Type} (u u' : list A) (v v' : list B) :
  length u = length v ->
  combine (u ++ u') (v ++ v') = combine u v ++ combine u' v'.
Proof.
  revert v. induction u as [|a u IH]; intros [|b v] L; simpl in *;
    try discriminate; auto.
  f_equal. apply IH. lia.
Qed.

Lemma in_firstn {A : Type} (n : nat) (l : list A) (a : A) :
  In a (firstn n l) -> In a l.
Proof.
  intros I. rewrite <- (firstn_skipn n l). apply in_or_app. now left.
Qed.

(** ** The update step computes sums, counts, means and reseeds *)

Section UpdateRefinement.
Context {T : Type} `{Num T}.
Variable X : matrix T.
Variable rng : nat -> Z.

Lemma members_snoc (X' : matrix T) (A' : list Z) (x : list T) (a : Z) (j : nat) :
  length X' = length A' ->
  members (X' ++ [x]) (A' ++ [a]) j =
  members X' A' j ++ (if (a =? Z.of_nat j + 1)%Z then [x] else []).
Proof.
  intros L. unfold members. rewrite combine_app_eq by assumption.
  rewrite filter_app, map_app. simpl.
  destruct (a =? Z.of_nat j + 1)%Z; reflexivity.
Qed.

Lemma vec_sum_snoc (d : nat) (rows : matrix T) (x : list T) :
  vec_sum d (rows ++ [x]) = vec_add (vec_sum d rows) x.
Proof. unfold vec_sum. now rewrite fold_left_app. Qed.

Lemma length_vec_add (u v : list T) :
  length u = length v -> length (vec_add u v) = length u.
Proof.
  intros L. unfold vec_add. rewrite length_map, length_combine. lia.
Qed.

Lemma length_vec_sum (d : nat) (rows : matrix T) :
  Forall (fun r => length r = d) rows -> length (vec_sum d rows) = d.
Proof.
  unfold vec_sum. generalize (repeat_length (@zero T _) d).
  generalize (repeat (@zero T _) d) as acc.
  induction rows as [|r rows IH]; intros acc La F; simpl; auto.
  inversion F; subst. apply IH; auto. rewrite length_vec_add; lia.
Qed.

Lemma members_rows (n d : nat) (A : list Z) (j : nat) :
  shaped n d X -> Forall (fun r => length r = d) (members X A j).
Proof.
  intros (_ & F). unfold members. rewrite Forall_forall in *.
  intros r Hr. apply in_map_iff in Hr. destruct Hr as ((r', a) & <- & Hin).
  apply filter_In in Hin. destruct Hin as (Hin & _).
  apply in_combine_l in Hin. now apply F.
Qed.

Lemma members_firstn_rows (n d m : nat) (A : list Z) (j : nat) :
  shaped n d X ->
  Forall (fun r => length r = d) (members (firstn m X) (firstn m A) j).
Proof.
  intros (_ & F). unfold members. rewrite Forall_forall in *.
  intros r Hr. apply in_map_iff in Hr. destruct Hr as ((r', a) & <- & Hin).
  apply filter_In in Hin. destruct Hin as (Hin & _).
  apply in_combine_l in Hin. apply F. eapply in_firstn; eauto.
Qed.

Lemma accumulate_ok (n k d : nat) (A : list Z) :
  shaped n d X -> length A = n ->
  Forall (fun a => (1 <= a <= Z.of_nat k)%Z) A ->
  accumulate X A n d (zeros zero k d, repeat 0%Z k) =
  Ok (map (fun j => vec_sum d (members X A j)) (seq 0 k),
      map (fun j => Z.of_nat (length (members X A j))) (seq 0 k)).
Proof.
  intros SX LA FA. unfold accumulate, for_.
  pose (sf := fun m j => vec_sum d (members (firstn m X) (firstn m A) j)).
  pose (cf := fun m j => Z.of_nat (length (members (firstn m X) (firstn m A) j))).
  loop_inv (fun m st => st = (map (sf m) (seq 0 k), map (cf m) (seq 0 k)))
    as (r & E & P).
  - unfold zeros. now rewrite !repeat_map_seq with (k := k).
  - intros m st Hm ->.
    destruct (nth_error_lt X m) as (x & Ex); [destruct SX; lia|].
    destruct (nth_error_lt A m) as (a & Ea); [lia|].
    assert (Ha : (1 <= a <= Z.of_nat k)%Z).
    { rewrite Forall_forall in FA. apply FA. eapply nth_error_In; eauto. }
    assert (Lx : length x = d) by (eapply shaped_row; eauto).
    apply vget_ok in Ea as Ea'. rewrite Ea'. cbn [bind]. unfold index.
    destruct (Z.ltb_spec (a - 1) 0) as [?|_]; [lia|]. cbn [bind].
    set (ci := Z.to_nat (a - 1)).
    assert (Hci : ci < k) by (unfold ci; lia).
    rewrite (map_seq_split (cf m) k ci Hci).
    rewrite vget_at by (now rewrite length_map, length_seq). cbn [bind].
    rewrite vset_at by (now rewrite length_map, length_seq). cbn [bind].
    rewrite (map_seq_split (sf m) k ci Hci).
    assert (Lrow : length (sf m ci) = d).
    { unfold sf. apply length_vec_sum. eapply members_firstn_rows; eauto. }
    pose proof (row_loop
                  (fun l nc =>
                     v <- mget nc ci l ;; x <- mget X m l ;;
                     mset nc ci l (add v x))
                  (map (sf m) (seq 0 ci))
                  (map (sf m) (seq (S ci) (k - S ci)))
                  (sf m ci) (vec_add (sf m ci) x) []) as R.
    cbn [length app Nat.add] in R. rewrite Lrow in R. rewrite R; clear R.
    + cbn [bind]. eexists; split; [reflexivity|].
      rewrite !map_seq_update by assumption.
      f_equal; apply map_ext_in; intros j Hj; unfold sf, cf;
        rewrite (firstn_snoc Ex), (firstn_snoc Ea), members_snoc
          by (rewrite !length_firstn; destruct SX; lia);
        destruct (Nat.eqb_spec j ci) as [->|Hne].
      * replace (a =? Z.of_nat ci + 1)%Z with true
          by (symmetry; apply Z.eqb_eq; unfold ci; lia).
        symmetry. apply vec_sum_snoc.
      * replace (a =? Z.of_nat j + 1)%Z with false
          by (symmetry; apply Z.eqb_neq; unfold ci in Hne; lia).
        now rewrite app_nil_r.
      * replace (a =? Z.of_nat ci + 1)%Z with true
          by (symmetry; apply Z.eqb_eq; unfold ci; lia).
        rewrite length_app. simpl. lia.
      * replace (a =? Z.of_nat j + 1)%Z with false
          by (symmetry; apply Z.eqb_neq; unfold ci in Hne; lia).
        now rewrite app_nil_r.
    + rewrite length_vec_add; lia.
    + intros l d1 v v' t1 Ld1 Ev Ev'.
      assert (Hl : l < d).
      { rewrite <- Lrow. apply nth_error_Some. congruence. }
      destruct (nth_error_lt x l) as (xl & Exl); [lia|].
      unfold vec_add in Ev'.
      rewrite nth_error_map, (nth_error_combine Ev Exl) in Ev'.
      injection Ev' as <-. cbn [fst snd].
      rewrite mget_at by (rewrite ?length_map, ?length_seq; auto).
      cbn [bind]. rewrite (mget_row l Ex).
      apply vget_ok in Exl. rewrite Exl. cbn [bind].
      apply mset_at; rewrite ?length_map, ?length_seq; auto.
  - rewrite E, P. cbn [Nat.add]. unfold sf, cf.
    rewrite !firstn_all2 by (destruct SX; lia). reflexivity.
Qed.

Lemma vget_map_seq {B : Type} (f : nat -> B) (k j : nat) :
  j < k -> vget (map f (seq 0 k)) j = Ok (f j).
Proof.
  intros L. rewrite (map_seq_split f k j L).
  apply vget_at. now rewrite length_map, length_seq.
Qed.

Lemma empties_before_S (A : list Z) (j : nat) :
  empties_before X A (S j) =
  empties_before X A j + (if is_empty (members X A j) then 1 else 0).
Proof.
  unfold empties_before. rewrite seq_S, filter_app, length_app. simpl.
  destruct (is_empty (members X A j)); reflexivity.
Qed.

Lemma finish_ok (n k d s : nat) (A : list Z) :
  shaped n d X ->
  (forall j, j < k -> members X A j = [] ->
             (0 <= rng (s + empties_before X A j) < Z.of_nat n)%Z) ->
  finish X rng (map (fun j => Z.of_nat (length (members X A j))) (seq 0 k))
         k d (map (fun j => vec_sum d (members X A j)) (seq 0 k), s) =
  Ok (update X rng A k d s).
Proof.
  intros SX Hrng. unfold finish, for_.
  set (sf := fun j => vec_sum d (members X A j)).
  set (cf := fun j => Z.of_nat (length (members X A j))).
  loop_inv (fun j st =>
              st = (map (new_center X rng A d s) (seq 0 j) ++
                    map sf (seq j (k - j)),
                    s + empties_before X A j))
    as (r & E & P).
  - cbn [seq map app]. rewrite Nat.sub_0_r. unfold empties_before. simpl.
    now rewrite Nat.add_0_r.
  - intros j st Hj ->.
    rewrite vget_map_seq by lia. cbn [bind].
    rewrite seq_S, map_app, <- app_assoc, empties_before_S.
    replace (k - j) with (S (k - S j)) by lia. cbn [seq map app Nat.add].
    assert (Lrow : length (sf j) = d).
    { unfold sf. apply length_vec_sum. eapply members_rows; eauto. }
    assert (Lpre : length (map (new_center X rng A d s) (seq 0 j)) = j)
      by (now rewrite length_map, length_seq).
    assert (Ecf : cf j = Z.of_nat (length (members X A j))) by reflexivity.
    assert (Esf : sf j = vec_sum d (members X A j)) by reflexivity.
    destruct (members X A j) as [|m0 ms] eqn:Em.
    + (* empty cluster: reseed *)
      replace (0 <? cf j)%Z with false by (now rewrite Ecf).
      cbn [is_empty].
      specialize (Hrng j ltac:(lia) Em).
      set (rand_idx := rng (s + empties_before X A j)) in *.
      destruct (nth_error_lt X (Z.to_nat rand_idx)) as (xr & Exr);
        [destruct SX; lia|].
      pose proof (row_loop
                    (fun l nc =>
                       r <- index rand_idx ;; x <- mget X r l ;; mset nc j l x)
                    (map (new_center X rng A d s) (seq 0 j))
                    (map sf (seq (S j) (k - S j)))
                    (sf j) xr []) as R.
      cbn [length app Nat.add] in R. rewrite Lrow in R. rewrite R; clear R.
      * cbn [bind]. eexists; split; [reflexivity|].
        replace (new_center X rng A d s j) with xr.
        -- f_equal. lia.
        -- unfold new_center. rewrite Em. fold rand_idx.
           now rewrite (nth_error_nth _ _ _ Exr).
      * eapply shaped_row; eauto.
      * intros l d1 v v' t1 Ld1 Ev Ev'. unfold index.
        destruct (Z.ltb_spec rand_idx 0) as [?|_]; [lia|]. cbn [bind].
        rewrite (mget_row l Exr). apply vget_ok in Ev'. rewrite Ev'.
        cbn [bind]. apply mset_at; auto.
    + (* mean of the members *)
      replace (0 <? cf j)%Z with true
        by (symmetry; apply Z.ltb_lt; rewrite Ecf; simpl; lia).
      cbn [is_empty].
      pose proof (row_loop
                    (fun l nc =>
                       v <- mget nc j l ;; mset nc j l (div v (of_int (cf j))))
                    (map (new_center X rng A d s) (seq 0 j))
                    (map sf (seq (S j) (k - S j)))
                    (sf j) (map (fun v => div v (of_int (cf j))) (sf j)) []) as R.
      cbn [app Nat.add] in R. change (length (@nil T)) with 0 in R.
      rewrite Lrow in R. rewrite R; clear R.
      * cbn [bind]. eexists; split; [reflexivity|].
        replace (new_center X rng A d s j)
          with (map (fun v => div v (of_int (cf j))) (sf j)).
        -- f_equal. lia.
        -- unfold new_center, cluster_mean. now rewrite Em, Ecf, Esf.
      * now rewrite length_map.
      * intros l d1 v v' t1 Ld1 Ev Ev'.
        rewrite mget_at by auto. cbn [bind].
        rewrite nth_error_map, Ev in Ev'. injection Ev' as <-.
        apply mset_at; auto.
  - rewrite E, P. cbn [Nat.add]. rewrite Nat.sub_diag. cbn [seq map].
    now rewrite app_nil_r.
Qed.

Lemma update_step_ok (n k d s : nat) (A : list Z) :
  shaped n d X -> length A = n ->
  Forall (fun a => (1 <= a <= Z.of_nat k)%Z) A ->
  (forall j, j < k -> members X A j = [] ->
             (0 <= rng (s + empties_before X A j) < Z.of_nat n)%Z) ->
  update_step X rng A n k d s = Ok (update X rng A k d s).
Proof.
  intros SX LA FA Hrng. unfold update_step.
  rewrite (accumulate_ok n k d A SX LA FA). cbn [bind fst snd].
  now apply finish_ok with (n := n).
Qed.
End UpdateRefinement.

(** ** binary64: signs and comparisons *)

Lemma binary_round_aux_sign (sx : bool) (m e : Z) (l : location) :
  sf_sign_in sx (binary_round_aux prec emax sx m e l).
Proof.
  unfold binary_round_aux.
  destruct (shr_fexp prec emax m e l) as (mrs', e').
  destruct (shr_fexp prec emax
              (round_nearest_even (shr_m mrs') (loc_of_shr_record mrs'))
              e' loc_Exact) as (mrs'', e'').
  destruct (shr_m mrs''); simpl; auto.
  match goal with
  | |- context [if ?c then _ else _] => destruct c; simpl; auto
  end.
Qed.

Lemma square_nonneg (x : float) : nonneg (x * x)%float.
Proof.
  unfold nonneg. rewrite FloatAxioms.mul_spec. unfold SF64mul.
  destruct (Prim2SF x) as [s|s| |s m e]; simpl; auto;
    try (now destruct s).
  pose proof (binary_round_aux_sign (xorb s s) (Z.pos (m * m)) (e + e) loc_Exact) as B.
  rewrite xorb_nilpotent in *.
  destruct (binary_round_aux prec emax false (Z.pos (m * m)) (e + e) loc_Exact);
    simpl in *; auto.
Qed.

Lemma add_nonneg (x y : float) : nonneg x -> nonneg y -> nonneg (x + y)%float.
Proof.
  unfold nonneg. rewrite FloatAxioms.add_spec. unfold SF64add.
  destruct (Prim2SF x) as [sx|sx| |sx mx ex];
    destruct (Prim2SF y) as [sy|sy| |sy my ey]; simpl;
      intros Hx Hy; subst; simpl; auto.
  unfold binary_round.
  match goal with
  | |- context [shl_align ?m ?e ?e'] =>
      destruct (shl_align m e e') as (mz, ez)
  end.
  match goal with
  | |- sf_nonneg (binary_round_aux _ _ false ?m ?e ?l) =>
      pose proof (binary_round_aux_sign false m e l) as B;
        destruct (binary_round_aux prec emax false m e l); simpl in *; auto
  end.
Qed.

Lemma nonneg_zero : nonneg 0%float.
Proof. reflexivity. Qed.

(** A number that is not negative is not below a number that is [<= 0]. *)
Lemma nonneg_not_below (x t : float) :
  nonneg x -> (t <=? 0)%float = true -> (x <? t)%float = false.
Proof.
  unfold nonneg. rewrite FloatAxioms.leb_spec, FloatAxioms.ltb_spec.
  change (Prim2SF 0%float) with (S754_zero false).
  unfold SFleb, SFltb.
  destruct (Prim2SF x) as [sx|sx| |sx mx ex];
    destruct (Prim2SF t) as [st|st| |st mt et]; simpl;
      intros Hx Ht; subst; try discriminate; auto;
        destruct st; simpl in *; try discriminate; auto.
Qed.

(** ** The movement of the centers *)

Section CenterChange.
Context {T : Type} `{Num T}.

Lemma sq_loop_ok (M1 M2 : matrix T) (d i j : nat) (x c : list T) (acc : T) :
  nth_error M1 i = Some x -> nth_error M2 j = Some c ->
  length x = d -> length c = d ->
  for_from 0 d
    (fun l cc =>
       a <- mget M1 i l ;; b <- mget M2 j l ;;
       Ok (add cc (mul (sub a b) (sub a b))))
    acc =
  Ok (fold_left sq_step (combine x c) acc).
Proof.
  intros Ex Ec Lx Lc.
  loop_inv (fun l cc => cc = fold_left sq_step (firstn l (combine x c)) acc)
    as (r & E & P).
  - reflexivity.
  - intros l st Hl ->.
    destruct (nth_error_lt x l) as (a & Ea); [lia|].
    destruct (nth_error_lt c l) as (b & Eb); [lia|].
    rewrite (mget_row l Ex), (mget_row l Ec).
    apply vget_ok in Ea as Ea'. apply vget_ok in Eb as Eb'.
    rewrite Ea', Eb'. cbn [bind]. eexists; split; [reflexivity|].
    rewrite (firstn_snoc (nth_error_combine Ea Eb)).
    now rewrite fold_left_app.
  - rewrite E, P. cbn [Nat.add]. rewrite firstn_all2; [reflexivity|].
    rewrite length_combine. lia.
Qed.

Lemma center_change_ok (N C : matrix T) (k d : nat) :
  shaped k d N -> shaped k d C ->
  center_change N C k d = Ok (change N C).
Proof.
  intros SN SC. unfold center_change, for_. cbv zeta.
  loop_inv (fun j cc => cc = fold_left sq_change (firstn j (combine N C)) zero)
    as (r & E & P).
  - reflexivity.
  - intros j st Hj ->.
    destruct (nth_error_lt N j) as (a & Ea); [destruct SN; lia|].
    destruct (nth_error_lt C j) as (b & Eb); [destruct SC; lia|].
    rewrite (sq_loop_ok N C d j j a b _ Ea Eb
                        (shaped_row SN Ea) (shaped_row SC Eb)).
    eexists; split; [reflexivity|].
    rewrite (firstn_snoc (nth_error_combine Ea Eb)).
    now rewrite fold_left_app.
  - rewrite E, P. cbn [Nat.add]. unfold change.
    rewrite firstn_all2; [reflexivity|].
    rewrite length_combine. destruct SN, SC. lia.
Qed.
End CenterChange.

(** In binary64 the movement is a sum of squares: never a negative number,
    whatever the matrices. *)
Lemma center_change_nonneg (N C : matrix float) (k d : nat) (cc : float) :
  center_change N C k d = Ok cc -> nonneg cc.
Proof.
  unfold center_change, for_. cbv zeta.
  apply (for_from_inv_ok (fun _ c => nonneg c)).
  - exact nonneg_zero.
  - intros j st st' _ Hst.
    apply (for_from_inv_ok (fun _ c => nonneg c)); [assumption|].
    intros l c c' _ Hc E.
    apply bind_ok in E. destruct E as (a & _ & E).
    apply bind_ok in E. destruct E as (b & _ & E).
    injection E as <-. apply add_nonneg; [assumption|].
    apply square_nonneg.
Qed.

(** ** The main loop: exits *)

(** With [tol <= 0] no run leaves through the tolerance test. *)
Lemma iterate_never_by_tolerance (X : matrix float) (rng : nat -> Z)
      (max_iter : Z) (tol : float) (n k d : nat) :
  (tol <=? 0)%float = true ->
  forall fuel i C A old s r s',
    iterate X rng max_iter tol n k d fuel i C A old s = Ok (r, s') ->
    res_exit r <> ConvergedByTolerance.
Proof.
  intros Htol. induction fuel as [|fuel IH]; intros i C A old s r s' E.
  - simpl in E. injection E as <- <-. discriminate.
  - cbn [iterate] in E. apply bind_ok in E. destruct E as (A' & _ & E).
    destruct (all_eq A' old).
    + injection E as <- <-. discriminate.
    + apply bind_ok in E. destruct E as ((N, s1) & _ & E).
      apply bind_ok in E. destruct E as (cc & Ecc & E).
      apply center_change_nonneg in Ecc.
      change (ltb cc tol) with (cc <? tol)%float in E.
      rewrite (nonneg_not_below _ _ Ecc Htol) in E.
      eapply IH; eauto.
Qed.

(** C4, counterexample: [tol = 0], one observation and one center on it.  The
    update step returns the old center matrix, the movement is exactly 0, the
    test [0 < 0] fails, and the run of two iterations leaves through the
    stability test of iteration 1. *)
Lemma equal_centers_do_not_fire :
  (0 <=? 0)%float = true /\
  ~ fires_on_equal_centers 0%float /\
  forall rng s,
    update_step [[0%float]] rng [1%Z] 1 1 1 s = Ok ([[0%float]], s) /\
    kmeans_cpp_loop rng s [[0%float]] [[0%float]] 2 0%float =
    Ok (mkResult [[0%float]] [1%Z] 1 ConvergedByStability, s).
Proof.
  split; [reflexivity|]. split.
  - intros F. specialize (F [[0%float]] 1 1 0%float eq_refl). discriminate F.
  - intros rng s. split; reflexivity.
Qed.

(** C4, as amended: with [tol <= 0] the tolerance exit is unreachable.  The
    movement of the centers is a sum of squares, never below [tol], also when
    it is exactly 0. *)
Theorem tolerance_exit_unreachable
        (rng : nat -> Z) (s : nat) (X C : matrix float) (max_iter : Z)
        (tol : float) (r : result float) (s' : nat) :
  (tol <=? 0)%float = true ->
  kmeans_cpp_loop rng s X C max_iter tol = Ok (r, s') ->
  res_exit r <> ConvergedByTolerance /\
  forall (N C' : matrix float) (k d : nat) (cc : float),
    center_change N C' k d = Ok cc -> ltb cc tol = false.
Proof.
  intros Htol E. split.
  - unfold kmeans_cpp_loop in E.
    eapply iterate_never_by_tolerance; eauto.
  - intros N C' k d cc Ecc. apply nonneg_not_below; auto.
    eapply center_change_nonneg; eauto.
Qed.

Lemma tolerance_exit_unreachable_witness :
  res_exit (mkResult [[0; 0.5]; [10; 0.5]]%float [1; 1; 2; 2]%Z 1
                     ConvergedByStability) <> ConvergedByTolerance /\
  forall (N C' : matrix float) (k d : nat) (cc : float),
    center_change N C' k d = Ok cc -> ltb cc (-1)%float = false.
Proof.
  apply (tolerance_exit_unreachable (fun _ => 0%Z) 0
           X_two_groups C_two_groups 10 (-1)%float
           (mkResult [[0; 0.5]; [10; 0.5]]%float [1; 1; 2; 2]%Z 1
                     ConvergedByStability) 0).
  - reflexivity.
  - vm_compute. reflexivity.
Defined.

(** ** Distances that do not compare below [R_PosInf] *)

(** C3: one observation at [2^600], one center at 0.  The squared distance
    overflows to [+Inf], which is not below [R_PosInf]: [best_cluster] stays
    0, the assignment vector equals the zero-initialised previous one, and
    the run leaves through the stability test of iteration 0. *)
Lemma stability_fires_on_iteration_0 :
  forall rng s,
    find_closest_centers [[huge]] [[0%float]] = Ok [0%Z] /\
    kmeans_cpp_loop rng s [[huge]] [[0%float]] 1 0%float =
    Ok (mkResult [[0%float]] [0%Z] 0 ConvergedByStability, s).
Proof. intros rng s. split; reflexivity. Qed.

(** C9: two observations, [2^600] and 0, one center at 0.  The first
    observation is assigned 0, the second 1; the update step then subscripts
    [counts] with [0 - 1]. *)
Lemma update_leaves_the_bounds :
  forall rng s tol,
    shaped 2 1 [[huge]; [0%float]] /\ shaped 1 1 [[0%float]] /\
    find_closest_centers [[huge]; [0%float]] [[0%float]] = Ok [0%Z; 1%Z] /\
    update_step [[huge]; [0%float]] rng [0%Z; 1%Z] 2 1 1 s = Fault /\
    kmeans_cpp_loop rng s [[huge]; [0%float]] [[0%float]] 1 tol = Fault.
Proof.
  intros rng s tol.
  repeat split; repeat constructor.
Qed.

(** C10: two observations at [2^600] and [-2^600], centers at 0 and 1,
    [max_iter = 5].  The loop runs and the returned cluster vector is
    [[0; 0]]. *)
Lemma cluster_zero_after_the_loop_ran :
  forall rng s tol,
    kmeans_cpp_loop rng s [[huge]; [(- huge)%float]] [[0%float]; [1%float]]
                    5 tol =
    Ok (mkResult [[0%float]; [1%float]] [0%Z; 0%Z] 0 ConvergedByStability, s).
Proof. intros rng s tol. reflexivity. Qed.

(** ** What holds when the distances compare below [R_PosInf] *)

Section BelowInfinity.
Context {T : Type} `{Num T} `{NumOrd T}.
Variable X : matrix T.
Variable rng : nat -> Z.
Variable max_iter : Z.
Variable tol : T.

(** [max_iter <= 0]: the loop body never runs, and the cluster vector is the
    zero-initialised one. *)
Lemma no_iteration_returns_zeros (s : nat) (C : matrix T) :
  (max_iter <= 0)%Z ->
  kmeans_cpp_loop rng s X C max_iter tol =
  Ok (mkResult C (repeat 0%Z (nrow X)) max_iter StoppedAtMaxIter, s).
Proof.
  intros Hm. unfold kmeans_cpp_loop.
  replace (Z.to_nat max_iter) with 0 by lia. reflexivity.
Qed.

(** A stability exit of the iteration with counter [i] or of a later one
    reports at least [i]. *)
Lemma stability_exit_iter (n k d : nat) :
  forall fuel i C A old s r s',
    iterate X rng max_iter tol n k d fuel i C A old s = Ok (r, s') ->
    res_exit r = ConvergedByStability -> (i <= res_iter r)%Z.
Proof.
  induction fuel as [|fuel IH]; intros i C A old s r s' E Hex.
  - simpl in E. injection E as <- <-. discriminate.
  - cbn [iterate] in E. apply bind_ok in E. destruct E as (A' & EA & E).
    destruct (all_eq A' old).
    + injection E as <- <-. simpl. lia.
    + apply bind_ok in E. destruct E as ((N, s1) & _ & E).
      apply bind_ok in E. destruct E as (cc & _ & E).
      destruct (ltb cc tol).
      * injection E as <- <-. discriminate.
      * apply IH in E; auto. lia.
Qed.

(** The stability test does not fire on iteration 0 as soon as one
    observation has a center at a distance that compares below [R_PosInf]. *)
Lemma stability_waits_for_iteration_1 (n k d s : nat) (C : matrix T)
      (r : result T) (s' : nat) :
  shaped n d X -> shaped k d C ->
  (exists x c, In x X /\ In c C /\ ltb (sq_dist x c) pos_inf = true) ->
  kmeans_cpp_loop rng s X C max_iter tol = Ok (r, s') ->
  res_exit r = ConvergedByStability ->
  (1 <= res_iter r)%Z.
Proof.
  intros SX SC (x & c & Hx & Hc & Hlt) E Hex. unfold kmeans_cpp_loop in E.
  destruct (Z.to_nat max_iter) as [|fuel].
  - simpl in E. injection E as <- <-. discriminate.
  - cbn [iterate] in E.
    rewrite (find_closest_centers_ok X C n k d SX SC) in E. cbn [bind] in E.
    destruct (all_eq (map (nearest C) X) (repeat 0%Z (nrow X))) eqn:Eall.
    + exfalso. apply all_eq_true in Eall.
      assert (Hin : In (nearest C x) (repeat 0%Z (nrow X))).
      { rewrite <- Eall. now apply in_map. }
      apply repeat_spec in Hin.
      pose proof (scan_finds x C 0 0%Z (ex_intro _ c (conj Hc Hlt))) as P.
      unfold nearest in Hin. lia.
    + apply bind_ok in E. destruct E as ((N, s1) & _ & E).
      apply bind_ok in E. destruct E as (cc & _ & E).
      destruct (ltb cc tol).
      * injection E as <- <-. discriminate.
      * apply stability_exit_iter in E; auto.
Qed.
End BelowInfinity.

(** ** The random source *)

(** A loop whose state carries the number [cnt] of values taken from the
    random source reads it only between the initial and the final count. *)
Lemma for_from_local {S : Type} (cnt : S -> nat) (rng1 rng2 : nat -> Z)
      (body1 body2 : nat -> S -> res S) :
  (forall i st st',
      body1 i st = Ok st' ->
      cnt st <= cnt st' /\
      ((forall t, cnt st <= t < cnt st' -> rng1 t = rng2 t) ->
       body2 i st = Ok st')) ->
  forall count lo st st',
    for_from lo count body1 st = Ok st' ->
    cnt st <= cnt st' /\
    ((forall t, cnt st <= t < cnt st' -> rng1 t = rng2 t) ->
     for_from lo count body2 st = Ok st').
Proof.
  intros Hbody. induction count as [|c IH]; intros lo st st' E.
  - simpl in E. injection E as <-. split; [lia | reflexivity].
  - simpl in E. apply bind_ok in E. destruct E as (st1 & E1 & E).
    destruct (Hbody _ _ _ E1) as (L1 & B1).
    destruct (IH _ _ _ E) as (L2 & B2).
    split; [lia|]. intros Hag. simpl.
    rewrite B1 by (intros t Ht; apply Hag; lia). cbn [bind].
    apply B2. intros t Ht. apply Hag. lia.
Qed.

Section RandomSource.
Context {T : Type} `{Num T} `{NumOrd T}.
Variable X : matrix T.
Variables rng1 rng2 : nat -> Z.

Lemma finish_local (counts : list Z) (k d : nat) (st st' : matrix T * nat) :
  finish X rng1 counts k d st = Ok st' ->
  snd st <= snd st' /\
  ((forall t, snd st <= t < snd st' -> rng1 t = rng2 t) ->
   finish X rng2 counts k d st = Ok st').
Proof.
  unfold finish, for_. apply for_from_local.
  intros j (nc, s) st1 E. cbv zeta in *.
  destruct (vget counts j) as [c|]; [|discriminate]. cbn [bind] in *.
  destruct (0 <? c)%Z.
  - apply bind_ok in E. destruct E as (nc' & E' & E). injection E as <-.
    cbn [snd]. split; [lia|]. intros _. now rewrite E'.
  - apply bind_ok in E. destruct E as (nc' & E' & E). injection E as <-.
    cbn [snd]. split; [lia|]. intros Hag.
    rewrite <- (Hag s) by lia. now rewrite E'.
Qed.

Lemma update_step_local (A : list Z) (n k d s : nat) (N : matrix T) (s' : nat) :
  update_step X rng1 A n k d s = Ok (N, s') ->
  s <= s' /\
  ((forall t, s <= t < s' -> rng1 t = rng2 t) ->
   update_step X rng2 A n k d s = Ok (N, s')).
Proof.
  unfold update_step. intros E.
  apply bind_ok in E. destruct E as (acc & Eacc & E). rewrite Eacc.
  cbn [bind]. apply (finish_local _ _ _ _ _ E).
Qed.

Lemma iterate_local (max_iter : Z) (tol : T) (n k d : nat) :
  forall fuel i C A old s r s',
    iterate X rng1 max_iter tol n k d fuel i C A old s = Ok (r, s') ->
    s <= s' /\
    ((forall t, s <= t < s' -> rng1 t = rng2 t) ->
     iterate X rng2 max_iter tol n k d fuel i C A old s = Ok (r, s')).
Proof.
  induction fuel as [|fuel IH]; intros i C A old s r s' E.
  - simpl in *. injection E as <- <-. split; [lia | reflexivity].
  - cbn [iterate] in *.
    destruct (find_closest_centers X C) as [A'|]; [|discriminate].
    cbn [bind] in *. destruct (all_eq A' old).
    + injection E as <- <-. split; [lia | reflexivity].
    + apply bind_ok in E. destruct E as ((N, s1) & EU & E).
      destruct (update_step_local _ _ _ _ _ _ _ EU) as (L1 & U2).
      destruct (center_change N C k d) as [cc|] eqn:Ecc; [|discriminate].
      cbn [bind] in E. destruct (ltb cc tol) eqn:Elt.
      * injection E as <- <-. split; [lia|]. intros Hag.
        rewrite (U2 Hag). cbn [bind]. rewrite Ecc. cbn [bind].
        now rewrite Elt.
      * destruct (IH _ _ _ _ _ _ _ E) as (L2 & I2).
        split; [lia|]. intros Hag.
        rewrite U2 by (intros t Ht; apply Hag; lia). cbn [bind].
        rewrite Ecc. cbn [bind]. rewrite Elt.
        apply I2. intros t Ht. apply Hag. lia.
Qed.
End RandomSource.

(** C7, counterexample: observations 0 and 1, centers 0 and 100.  Both
    observations go to the first center, the second cluster is empty and is
    reseeded from the row that [R::runif] selects: with the draw 0 the engine
    returns the centers [[0.5]; [0]], with the draw 1 it returns
    [[0.5]; [1]], on the same arguments. *)
Lemma result_depends_on_the_draw :
  ~ pure_in_its_arguments.
Proof.
  intros P.
  specialize (P [[0]; [1]]%float [[0]; [100]]%float 1%Z 0%float
                (fun _ => 0%Z) (fun _ => 1%Z) 0 0
                (mkResult [[0.5]; [0]]%float [1; 1]%Z 1 StoppedAtMaxIter)
                (mkResult [[0.5]; [1]]%float [1; 1]%Z 1 StoppedAtMaxIter)
                1 1 eq_refl eq_refl).
  apply (f_equal (fun r => match res_centers r with
                           | [_; [c]] => PrimFloat.eqb c 0
                           | _ => false
                           end)) in P.
  vm_compute in P. discriminate P.
Qed.

(** C7, as amended: the engine keeps no state, and its result is a function
    of its arguments and of the values it takes from the random source.  A
    run that starts with [s] values consumed and ends with [s'] returns the
    same result under every source that yields the same values number [s] to
    [s' - 1]; when [s' = s] (no cluster was ever empty) the result does not
    depend on the source at all.  It holds in any arithmetic. *)
Theorem result_determined_by_arguments_and_draws
        {T : Type} `{Num T} `{NumOrd T}
        (rng1 rng2 : nat -> Z) (s : nat) (X C : matrix T) (max_iter : Z)
        (tol : T) (r : result T) (s' : nat) :
  kmeans_cpp_loop rng1 s X C max_iter tol = Ok (r, s') ->
  (forall t, s <= t < s' -> rng1 t = rng2 t) ->
  kmeans_cpp_loop rng2 s X C max_iter tol = Ok (r, s').
Proof.
  unfold kmeans_cpp_loop. intros E Hag.
  now apply (iterate_local X rng1 rng2 _ _ _ _ _ _ _ _ _ _ _ _ _ E).
Qed.

Lemma result_determined_by_arguments_and_draws_witness :
  kmeans_cpp_loop (fun t => if t =? 0 then 1%Z else 0%Z) 0
                  [[0]; [1]]%float [[0]; [100]]%float 1 0%float =
  Ok (mkResult [[0.5]; [1]]%float [1; 1]%Z 1 StoppedAtMaxIter, 1).
Proof.
  apply (result_determined_by_arguments_and_draws
           (fun _ => 1%Z) (fun t => if t =? 0 then 1%Z else 0%Z) 0
           [[0]; [1]]%float [[0]; [100]]%float 1 0%float).
  - reflexivity.
  - intros t Ht. assert (t = 0) as -> by lia. reflexivity.
Defined.

(** ** The update step, cluster by cluster *)

Section UpdateStep.
Context {T : Type} `{Num T}.
Variable X : matrix T.

Lemma empties_before_le (A : list Z) (j k : nat) :
  j <= k -> empties_before X A j <= empties_before X A k.
Proof.
  intros L. unfold empties_before.
  replace k with (j + (k - j)) by lia.
  rewrite seq_app, filter_app, length_app. lia.
Qed.

Lemma empties_before_lt (A : list Z) (j k : nat) :
  j < k -> members X A j = [] ->
  empties_before X A j < empties_before X A k.
Proof.
  intros L E.
  pose proof (empties_before_le A (S j) k L) as M.
  rewrite empties_before_S, E in M. simpl in M. lia.
Qed.

Lemma nth_error_update (rng : nat -> Z) (A : list Z) (k d s j : nat) :
  j < k ->
  nth_error (fst (update X rng A k d s)) j = Some (new_center X rng A d s j).
Proof.
  intros L. unfold update. cbn [fst].
  rewrite nth_error_map, nth_error_seq.
  destruct (Nat.ltb_spec j k); [reflexivity | lia].
Qed.
End UpdateStep.

(** C2: on a well-shaped observation matrix and an assignment vector of
    1-based indices, the update step returns a matrix of [k] rows in which
    row [j] of a cluster with members is their arithmetic mean (the
    coordinate-wise sum, accumulated in input order from 0, divided by the
    count), and row [j] of a cluster without members is the row of [X] that
    a value freshly taken from the random source selects.  It holds in any
    arithmetic, binary64 included. *)
Theorem update_step_mean_or_reseed
        {T : Type} `{Num T} (X : matrix T) (rng : nat -> Z) (A : list Z)
        (n k d s : nat) :
  shaped n d X -> length A = n ->
  Forall (fun a => (1 <= a <= Z.of_nat k)%Z) A ->
  (forall t, (0 <= rng t < Z.of_nat n)%Z) ->
  exists C' s',
    update_step X rng A n k d s = Ok (C', s') /\
    nrow C' = k /\
    forall j, j < k ->
      (members X A j <> [] ->
       nth_error C' j = Some (cluster_mean d (members X A j))) /\
      (members X A j = [] ->
       exists t, s <= t < s' /\
                 nth_error C' j = nth_error X (Z.to_nat (rng t)) /\
                 Z.to_nat (rng t) < n).
Proof.
  intros SX LA FA Hrng.
  exists (fst (update X rng A k d s)), (snd (update X rng A k d s)).
  split; [|split].
  - rewrite (update_step_ok X rng n k d s A SX LA FA); [|auto].
    now destruct (update X rng A k d s).
  - unfold update, nrow. cbn [fst]. now rewrite length_map, length_seq.
  - intros j Hj. rewrite (nth_error_update X rng A k d s j Hj).
    unfold new_center. split.
    + intros Hm. destruct (members X A j); [congruence | reflexivity].
    + intros Hm. rewrite Hm.
      exists (s + empties_before X A j).
      pose proof (empties_before_lt X A j k Hj Hm) as Hlt.
      specialize (Hrng (s + empties_before X A j)).
      assert (Hr : Z.to_nat (rng (s + empties_before X A j)) < n) by lia.
      unfold update. cbn [snd]. repeat split; try lia.
      destruct (nth_error_lt X (Z.to_nat (rng (s + empties_before X A j))))
        as (xr & Exr); [destruct SX; lia|].
      rewrite Exr. f_equal. now apply nth_error_nth.
Qed.

Lemma update_step_mean_or_reseed_witness :
  exists C' s',
    update_step [[0]; [1]]%float (fun _ => 1%Z) [1; 1]%Z 2 2 1 0 = Ok (C', s') /\
    nrow C' = 2 /\
    forall j, j < 2 ->
      (members [[0]; [1]]%float [1; 1]%Z j <> [] ->
       nth_error C' j =
       Some (cluster_mean 1 (members [[0]; [1]]%float [1; 1]%Z j))) /\
      (members [[0]; [1]]%float [1; 1]%Z j = [] ->
       exists t, 0 <= t < s' /\
                 nth_error C' j =
                 nth_error [[0]; [1]]%float (Z.to_nat ((fun _ => 1%Z) t)) /\
                 Z.to_nat ((fun _ => 1%Z) t) < 2).
Proof.
  apply (update_step_mean_or_reseed [[0]; [1]]%float (fun _ => 1%Z)
                                    [1; 1]%Z 2 2 1 0).
  - split; [reflexivity | repeat constructor].
  - reflexivity.
  - repeat constructor; simpl; lia.
  - intros t. simpl. lia.
Defined.

(** ** What a successful update step says about the assignment vector *)

Section Inversion.
Context {T : Type} `{Num T} `{NumOrd T}.
Variable X : matrix T.

Lemma find_closest_centers_length (C : matrix T) (A : list Z) :
  find_closest_centers X C = Ok A -> length A = nrow X.
Proof.
  unfold find_closest_centers, for_. intros E.
  apply (for_from_inv_ok (fun _ A => length A = nrow X)) in E; auto.
  - apply repeat_length.
  - intros i st st' _ L E'. apply bind_ok in E'. destruct E' as (r & _ & E').
    apply vset_length in E'. lia.
Qed.

Lemma accumulate_range (A : list Z) (n k d : nat) (st st' : matrix T * list Z) :
  accumulate X A n d st = Ok st' -> length (snd st) = k ->
  forall i a, i < n -> nth_error A i = Some a -> (1 <= a <= Z.of_nat k)%Z.
Proof.
  unfold accumulate, for_. intros E L.
  apply (for_from_inv_ok
           (fun j (st : matrix T * list Z) =>
              length (snd st) = k /\
              forall i a, i < j -> nth_error A i = Some a ->
                          (1 <= a <= Z.of_nat k)%Z)) in E.
  - now destruct E.
  - split; [assumption | intros; lia].
  - intros j (nc, counts) st1 _ (Lc & IH) E1. cbn [snd] in *.
    apply bind_ok in E1. destruct E1 as (a & Ea & E1).
    apply bind_ok in E1. destruct E1 as (ci & Eci & E1).
    apply bind_ok in E1. destruct E1 as (c & Ec & E1).
    apply bind_ok in E1. destruct E1 as (counts' & Ec' & E1).
    apply bind_ok in E1. destruct E1 as (nc' & _ & E1).
    injection E1 as <-. cbn [snd].
    apply vset_length in Ec'. split; [lia|].
    intros i a' Hi Ei.
    destruct (Nat.eq_dec i j) as [->|Hne]; [|apply (IH i a'); auto; lia].
    apply vget_ok in Ea. assert (a' = a) as -> by congruence.
    unfold index in Eci. destruct (Z.ltb_spec (a - 1) 0); [discriminate|].
    injection Eci as <-. lia.
Qed.

Lemma update_step_range (rng : nat -> Z) (A : list Z) (n k d s : nat)
      (N : matrix T) (s' : nat) :
  update_step X rng A n k d s = Ok (N, s') -> length A = n ->
  Forall (fun a => (1 <= a <= Z.of_nat k)%Z) A.
Proof.
  unfold update_step. intros E L.
  apply bind_ok in E. destruct E as (acc & Eacc & _).
  apply Forall_forall. intros a Ha.
  destruct (In_nth_error _ _ Ha) as (i & Ei).
  eapply (accumulate_range A n k d _ _ Eacc); eauto.
  - cbn [snd]. apply repeat_length.
  - rewrite <- L. apply nth_error_Some. congruence.
Qed.

(** A run that leaves through the tolerance test returns an assignment
    vector and the centers that the update step computed from it. *)
Lemma iterate_tolerance_inv (rng : nat -> Z) (max_iter : Z) (tol : T)
      (n k d : nat) :
  forall fuel i C A old s r s',
    iterate X rng max_iter tol n k d fuel i C A old s = Ok (r, s') ->
    res_exit r = ConvergedByTolerance ->
    exists C0 s0,
      find_closest_centers X C0 = Ok (res_cluster r) /\
      update_step X rng (res_cluster r) n k d s0 = Ok (res_centers r, s').
Proof.
  induction fuel as [|fuel IH]; intros i C A old s r s' E Hex.
  - simpl in E. injection E as <- <-. discriminate.
  - cbn [iterate] in E. apply bind_ok in E. destruct E as (A' & EA & E).
    destruct (all_eq A' old).
    + injection E as <- <-. discriminate.
    + apply bind_ok in E. destruct E as ((N, s1) & EU & E).
      apply bind_ok in E. destruct E as (cc & _ & E).
      destruct (ltb cc tol).
      * injection E as <- <-. cbn [res_cluster res_centers]. eauto.
      * eapply IH; eauto.
Qed.
End Inversion.

Lemma filter_none {A : Type} (f : A -> bool) (l : list A) :
  (forall a, In a l -> f a = false) -> filter f l = [].
Proof.
  induction l as [|a l IH]; intros F; simpl; auto.
  rewrite (F a) by (now left). apply IH. intros b Hb. apply F. now right.
Qed.

(** ** Running the engine again from returned centers *)

Section Rerun.
Context {T : Type} `{Num T} `{NumOrd T}.
Variable X : matrix T.

Lemma update_no_empty (rng : nat -> Z) (A : list Z) (k d s : nat) :
  (forall j, j < k -> members X A j <> []) ->
  update X rng A k d s = (means X A k d, s).
Proof.
  intros Hne. unfold update, means. f_equal.
  - apply map_ext_in. intros j Hj. apply in_seq in Hj.
    unfold new_center. specialize (Hne j ltac:(lia)).
    destruct (members X A j); congruence.
  - unfold empties_before.
    replace (filter (fun i => is_empty (members X A i)) (seq 0 k)) with (@nil nat);
      [simpl; lia|].
    symmetry. apply filter_none.
    intros j Hj. apply in_seq in Hj. specialize (Hne j ltac:(lia)).
    destruct (members X A j); [congruence | reflexivity].
Qed.

Lemma shaped_means (A : list Z) (n k d : nat) :
  shaped n d X -> shaped k d (means X A k d).
Proof.
  intros SX. unfold means. split.
  - now rewrite length_map, length_seq.
  - apply Forall_forall. intros r Hr. apply in_map_iff in Hr.
    destruct Hr as (j & <- & _). unfold cluster_mean. rewrite length_map.
    apply length_vec_sum. eapply members_rows; eauto.
Qed.

Lemma update_step_no_empty (rng : nat -> Z) (A : list Z) (n k d s : nat) :
  shaped n d X -> length A = n ->
  Forall (fun a => (1 <= a <= Z.of_nat k)%Z) A ->
  (forall j, j < k -> members X A j <> []) ->
  update_step X rng A n k d s = Ok (means X A k d, s).
Proof.
  intros SX LA FA Hne.
  rewrite (update_step_ok X rng n k d s A SX LA FA).
  - now rewrite update_no_empty.
  - intros j Hj E. now apply Hne in E.
Qed.
End Rerun.

(** C6, counterexample: observations [0], [1 + 2^-30] and [3 + 2^-26],
    centers [0] and [2], [tol = 2^-30].  The first update moves the second
    center by about [7.9e-9]: the movement [6.3e-17] is below [tol] and the
    run returns.  From the returned centers the middle observation is nearer
    to the first center, and one more iteration moves the centers to about
    [0.5] and [3]. *)
Lemma tolerance_exit_is_not_a_fixed_point :
  ~ idempotent_once_tolerance_held.
Proof.
  intros P.
  specialize (P [[0]; [0x1.00000004p+0]; [0x1.8000002p+1]]%float
                [[0]; [2]]%float 10%Z 0x1p-30%float
                (fun _ => 0%Z) (fun _ => 0%Z) 0 0
                (mkResult [[0]; [0x1.00000011p+1]]%float [1; 2; 2]%Z 1
                          ConvergedByTolerance)
                (mkResult [[0x1.00000004p-1]; [0x1.8000002p+1]]%float
                          [1; 1; 2]%Z 1 StoppedAtMaxIter)
                0 0 eq_refl eq_refl eq_refl).
  apply (f_equal (fun M => match M with
                           | [c] :: _ => PrimFloat.eqb c 0
                           | _ => false
                           end)) in P.
  vm_compute in P. discriminate P.
Qed.

(** C6, as amended: if a run left through the tolerance test, the
    assignment step on the returned centers reproduces the returned cluster
    vector, and no cluster is empty under it, then the engine invoked on the
    same [X] with the returned centers and [max_iter = 1] returns exactly
    those centers, for every tolerance and random source.  It holds in any
    arithmetic. *)
Theorem rerun_keeps_stable_centers
        {T : Type} `{Num T} `{NumOrd T}
        (rng : nat -> Z) (s : nat) (X C : matrix T) (max_iter : Z) (tol : T)
        (r : result T) (s' n d : nat) :
  shaped n d X -> 1 <= n ->
  kmeans_cpp_loop rng s X C max_iter tol = Ok (r, s') ->
  res_exit r = ConvergedByTolerance ->
  find_closest_centers X (res_centers r) = Ok (res_cluster r) ->
  (forall j, j < nrow C -> members X (res_cluster r) j <> []) ->
  forall (rng2 : nat -> Z) (s2 : nat) (tol2 : T),
  exists r2 s2',
    kmeans_cpp_loop rng2 s2 X (res_centers r) 1 tol2 = Ok (r2, s2') /\
    res_centers r2 = res_centers r.
Proof.
  intros SX Hn E Hex Hst Hne rng2 s2 tol2.
  assert (En : nrow X = n) by (now destruct SX).
  assert (Ed : ncol X = d) by (now apply (shaped_ncol SX)).
  unfold kmeans_cpp_loop in *. rewrite En, Ed in *.
  set (k := nrow C) in *.
  destruct (iterate_tolerance_inv X rng max_iter tol n k d _ _ _ _ _ _ _ _ E Hex)
    as (C0 & s0 & EA & EU).
  set (A := res_cluster r) in *. set (C' := res_centers r) in *.
  assert (LA : length A = n).
  { rewrite <- En. eapply find_closest_centers_length; eauto. }
  pose proof (update_step_range X rng A n k d s0 C' s' EU LA) as FA.
  assert (EC' : C' = means X A k d).
  { rewrite (update_step_no_empty X rng A n k d s0 SX LA FA Hne) in EU.
    now injection EU. }
  assert (Ek : nrow C' = k).
  { rewrite EC'. unfold means, nrow. now rewrite length_map, length_seq. }
  rewrite Ek. change (Z.to_nat 1) with 1. cbn [iterate].
  rewrite Hst. cbn [bind].
  destruct (all_eq A (repeat 0%Z n)).
  - eexists _, _. split; reflexivity.
  - rewrite (update_step_no_empty X rng2 A n k d s2 SX LA FA Hne). cbn [bind].
    rewrite <- EC'.
    assert (SC' : shaped k d C').
    { rewrite EC'. eapply shaped_means; eauto. }
    rewrite (center_change_ok C' C' k d SC' SC'). cbn [bind].
    destruct (ltb (change C' C') tol2); eexists _, _; split; reflexivity.
Qed.

Lemma rerun_keeps_stable_centers_witness :
  exists r2 s2',
    kmeans_cpp_loop (fun _ => 0%Z) 0 X_two_groups
                    [[0; 0.5]; [10; 0.5]]%float 1 0%float =
    Ok (r2, s2') /\
    res_centers r2 = [[0; 0.5]; [10; 0.5]]%float.
Proof.
  refine (rerun_keeps_stable_centers
            (fun _ => 0%Z) 0 X_two_groups C_two_groups 10 1000%float
            (mkResult [[0; 0.5]; [10; 0.5]]%float [1; 1; 2; 2]%Z 1
                      ConvergedByTolerance) 0 4 2
            _ _ _ _ _ _ (fun _ => 0%Z) 0 0%float).
  - split; [reflexivity | repeat constructor].
  - lia.
  - reflexivity.
  - reflexivity.
  - reflexivity.
  - intros j Hj. simpl in Hj.
    destruct j as [|[|j]]; [discriminate | discriminate | lia].
Defined.

(** ** The objective over the real numbers *)

Section RealObjective.
Local Open Scope R_scope.










Lemma members_cons {T : Type} (x : list T) (X : matrix T) (a : Z) (A : list Z)
      (j : nat) :
  members (x :: X) (a :: A) j =
  if (a =? Z.of_nat j + 1)%Z then x :: members X A j else members X A j.
Proof.
  unfold members. simpl. destruct (a =? Z.of_nat j + 1)%Z; reflexivity.
Qed.

End RealObjective.

Section MeanMinimises.
Local Open Scope R_scope.







End MeanMinimises.



(** The sum of a cluster can also overflow: two observations at [2^1023] in
    one cluster, old center on them.  The computed mean is [+Inf], and the
    objective goes from 0 to [+Inf]: on binary64 no bound on the increase
    holds. *)
Lemma overflowed_mean_makes_objective_infinite :
  forall rng s,
    update_step [[0x1p+1023]; [0x1p+1023]]%float rng [1; 1]%Z 2 1 1 s =
    Ok ([[infinity]], s) /\
    objective [[0x1p+1023]; [0x1p+1023]]%float [1; 1]%Z [[0x1p+1023]]%float =
    0%float /\
    objective [[0x1p+1023]; [0x1p+1023]]%float [1; 1]%Z [[infinity]] =
    infinity.
Proof. intros rng s. repeat split. Qed.



(** ** binary64: finite numbers *)

Lemma is_finite_SF (x : float) :
  is_finite x = true -> sf_finite (Prim2SF x).
Proof.
  unfold is_finite, is_nan, is_infinity.
  rewrite !FloatAxioms.eqb_spec, abs_spec.
  change (Prim2SF infinity) with (S754_infinity false).
  destruct (Prim2SF x) as [s|s| |s m e]; simpl; auto;
    try destruct s; simpl; discriminate.
Qed.

Lemma sub_self (x : float) : is_finite x = true -> (x - x)%float = 0%float.
Proof.
  intros F. apply is_finite_SF in F. apply Prim2SF_inj.
  rewrite FloatAxioms.sub_spec. change (Prim2SF 0%float) with (S754_zero false).
  unfold SF64sub. destruct (Prim2SF x) as [s|s| |s m e]; try contradiction.
  - destruct s; reflexivity.
  - unfold SFsub. rewrite Z.sub_diag. reflexivity.
Qed.

Lemma binary_round_aux_canonical (sx : bool) (m : positive) (e : Z) :
  SpecFloat.bounded prec emax m e = true ->
  binary_round_aux prec emax sx (Z.pos m) e loc_Exact = S754_finite sx m e.
Proof.
  unfold SpecFloat.bounded, canonical_mantissa. intros B.
  apply andb_prop in B. destruct B as (Bc & Be).
  apply Z.eqb_eq in Bc.
  unfold binary_round_aux, shr_fexp. cbn [Zdigits2 shr_record_of_loc].
  rewrite Bc, Z.sub_diag. cbn [shr loc_of_shr_record shr_m round_nearest_even].
  cbn [Zdigits2 shr_record_of_loc]. rewrite Bc, Z.sub_diag. cbn [shr shr_m].
  now rewrite Be.
Qed.

Lemma binary_round_aux_double (sx : bool) (m : positive) (e : Z) :
  SpecFloat.bounded prec emax m e = true ->
  (Z.pos (digits2_pos m) = 53)%Z -> (-1074 < e)%Z ->
  binary_round_aux prec emax sx (Z.pos m~0) (e - 1) loc_Exact =
  S754_finite sx m e.
Proof.
  intros B D He. pose proof B as B'.
  unfold SpecFloat.bounded, canonical_mantissa in B.
  apply andb_prop in B. destruct B as (Bc & Be).
  apply Z.eqb_eq in Bc.
  unfold binary_round_aux at 1. unfold shr_fexp at 1.
  cbn [Zdigits2 shr_record_of_loc digits2_pos].
  rewrite Pos2Z.inj_succ, D.
  replace (fexp prec emax (Z.succ 53 + (e - 1)) - (e - 1))%Z with 1%Z.
  2:{ unfold fexp, SpecFloat.emin, prec, emax. lia. }
  cbn [shr iter_pos shr_1 orb loc_of_shr_record shr_m round_nearest_even].
  replace (e - 1 + 1)%Z with e by lia.
  pose proof (binary_round_aux_canonical sx m e B') as C.
  unfold binary_round_aux in C. unfold shr_fexp at 1 in C.
  cbn [Zdigits2 shr_record_of_loc] in C. rewrite Bc, Z.sub_diag in C.
  cbn [shr loc_of_shr_record shr_m round_nearest_even] in C.
  exact C.
Qed.

Lemma div_eucl_mul (a b : Z) : (0 < b)%Z -> Z.div_eucl (a * b) b = (a, 0%Z).
Proof.
  intros Hb.
  pose proof (Z.div_mul a b ltac:(lia)) as Q.
  pose proof (Z.mod_mul a b ltac:(lia)) as M.
  unfold Z.div, Z.modulo in Q, M.
  destruct (Z.div_eucl (a * b) b) as (q, r). now subst.
Qed.

Lemma div_core_by_one (m : positive) (e : Z) :
  SpecFloat.bounded prec emax m e = true ->
  SFdiv_core_binary prec emax (Z.pos m) e (Z.pos mant_one) (-52) =
  if (e =? -1074)%Z
  then (Z.pos m, e, loc_Exact)
  else (Z.pos m~0, (e - 1)%Z, loc_Exact).
Proof.
  unfold SpecFloat.bounded, canonical_mantissa. intros B.
  apply andb_prop in B. destruct B as (Bc & _). apply Z.eqb_eq in Bc.
  unfold fexp, SpecFloat.emin, prec, emax in Bc.
  unfold SFdiv_core_binary. cbv zeta. cbn [Zdigits2].
  change (Z.pos (digits2_pos mant_one)) with 53%Z.
  unfold fexp, SpecFloat.emin, prec, emax.
  set (D := Z.pos (digits2_pos m)) in *.
  assert (HD : (0 < D)%Z) by (unfold D; lia).
  destruct (Z.eqb_spec e (-1074)) as [->|Hne].
  - replace (Z.min (Z.max (D + -1074 - (53 + -52) - 53) (3 - 1024 - 53))
                   (-1074 - -52))%Z with (-1074)%Z by lia.
    change (-1074 - -52 - -1074)%Z with 52%Z. cbv iota.
    rewrite Z.shiftl_mul_pow2 by lia.
    change (2 ^ 52)%Z with (Z.pos mant_one).
    rewrite div_eucl_mul by reflexivity. reflexivity.
  - replace (Z.min (Z.max (D + e - (53 + -52) - 53) (3 - 1024 - 53))
                   (e - -52))%Z with (e - 1)%Z by lia.
    replace (e - -52 - (e - 1))%Z with 53%Z by lia. cbv iota.
    rewrite Z.shiftl_mul_pow2 by lia.
    replace (Z.pos m * 2 ^ 53)%Z with (Z.pos m~0 * Z.pos mant_one)%Z
      by (change (2 ^ 53)%Z with 9007199254740992%Z; unfold mant_one; lia).
    rewrite div_eucl_mul by reflexivity. reflexivity.
Qed.

Lemma SFdiv_by_one (s : bool) (m : positive) (e : Z) :
  SpecFloat.bounded prec emax m e = true ->
  SFdiv prec emax (S754_finite s m e) (S754_finite false mant_one (-52)) =
  S754_finite s m e.
Proof.
  intros B. unfold SFdiv. rewrite (div_core_by_one m e B), xorb_false_r.
  destruct (Z.eqb_spec e (-1074)) as [He|Hne].
  - now apply binary_round_aux_canonical.
  - pose proof B as B'. unfold SpecFloat.bounded, canonical_mantissa in B'.
    apply andb_prop in B'. destruct B' as (Bc & _). apply Z.eqb_eq in Bc.
    unfold fexp, SpecFloat.emin, prec, emax in Bc.
    apply binary_round_aux_double; [assumption | lia | lia].
Qed.

Lemma norm_finite (x : float) (s : bool) (m : positive) (e : Z) :
  Prim2SF x = S754_finite s m e -> norm x = x.
Proof.
  intros E. apply Prim2SF_inj. unfold norm.
  rewrite FloatAxioms.div_spec, FloatAxioms.add_spec, E.
  change (Prim2SF 0%float) with (S754_zero false).
  change (Prim2SF 1%float) with (S754_finite false mant_one (-52)).
  unfold SF64div, SF64add. cbn [SFadd].
  apply SFdiv_by_one.
  pose proof (Prim2SF_valid x) as V. rewrite E in V. exact V.
Qed.

(** [norm] returns its argument, except that it maps [-0.0] to [+0.0]. *)
Lemma norm_cases (x : float) :
  is_finite x = true ->
  norm x = x \/ (x = neg_zero /\ norm x = 0%float).
Proof.
  intros F. apply is_finite_SF in F.
  destruct (Prim2SF x) as [s|s| |s m e] eqn:E; try contradiction.
  - destruct s.
    + right. assert (x = neg_zero) as -> by (now apply Prim2SF_inj).
      split; reflexivity.
    + left. assert (x = 0%float) as -> by (now apply Prim2SF_inj).
      reflexivity.
  - left. eapply norm_finite; eauto.
Qed.

Lemma sq_sub_zero_sign (y : float) :
  ((y - 0) * (y - 0))%float = ((y - neg_zero) * (y - neg_zero))%float.
Proof.
  apply Prim2SF_inj.
  rewrite !FloatAxioms.mul_spec, !FloatAxioms.sub_spec.
  change (Prim2SF 0%float) with (S754_zero false).
  change (Prim2SF neg_zero) with (S754_zero true).
  destruct (Prim2SF y) as [[|]|[|]| |s m e]; reflexivity.
Qed.

Lemma sq_term_norm (y c : float) :
  is_finite c = true ->
  ((y - norm c) * (y - norm c))%float = ((y - c) * (y - c))%float.
Proof.
  intros F. destruct (norm_cases c F) as [->|(-> & ->)]; [reflexivity|].
  apply sq_sub_zero_sign.
Qed.

Lemma sq_term_norm_self (c : float) :
  is_finite c = true ->
  ((norm c - c) * (norm c - c))%float = 0%float.
Proof.
  intros F. destruct (norm_cases c F) as [->|(-> & ->)].
  - rewrite (sub_self c F). reflexivity.
  - reflexivity.
Qed.

Lemma norm_eqb (c : float) :
  is_finite c = true -> (norm c =? c)%float = true.
Proof.
  intros F. destruct (norm_cases c F) as [->|(-> & ->)]; [|reflexivity].
  unfold is_finite, is_nan in F.
  destruct (c =? c)%float; [reflexivity | discriminate].
Qed.

Lemma fold_sq_norm (c : list float) :
  finite_row c ->
  forall (y : list float) (acc : float),
    fold_left sq_step (combine y (map norm c)) acc =
    fold_left sq_step (combine y c) acc.
Proof.
  induction 1 as [|v c Fv Fc IH]; intros y acc; destruct y as [|y0 y];
    try reflexivity.
  cbn [map combine fold_left]. rewrite IH. f_equal.
  unfold sq_step. cbn [fst snd].
  change (sub y0 (norm v)) with (y0 - norm v)%float.
  change (sub y0 v) with (y0 - v)%float.
  change (@mul float float_Num) with PrimFloat.mul.
  now rewrite sq_term_norm.
Qed.

Lemma sq_dist_norm (y c : list float) :
  finite_row c -> sq_dist y (map norm c) = sq_dist y c.
Proof. intros F. unfold sq_dist. now apply fold_sq_norm. Qed.

Lemma sq_dist_self (x : list float) :
  finite_row x -> sq_dist x x = 0%float.
Proof.
  unfold sq_dist. change (@zero float float_Num) with 0%float.
  induction 1 as [|v x Fv Fx IH]; [reflexivity|].
  cbn [combine fold_left]. unfold sq_step at 2. cbn [fst snd].
  change (sub v v) with (v - v)%float. rewrite (sub_self v Fv). exact IH.
Qed.

Lemma sq_change_norm (c : list float) :
  finite_row c -> sq_change 0%float (map norm c, c) = 0%float.
Proof.
  unfold sq_change. cbn [fst snd].
  induction 1 as [|v c Fv Fc IH]; [reflexivity|].
  cbn [map combine fold_left]. unfold sq_step at 2. cbn [fst snd].
  change (sub (norm v) v) with (norm v - v)%float.
  change (@mul float float_Num) with PrimFloat.mul.
  rewrite (sq_term_norm_self v Fv). exact IH.
Qed.

Lemma change_norm (C : matrix float) :
  Forall finite_row C -> change (map (map norm) C) C = 0%float.
Proof.
  unfold change. change (@zero float float_Num) with 0%float.
  induction 1 as [|c C Fc FC IH]; [reflexivity|].
  cbn [map combine fold_left]. rewrite (sq_change_norm c Fc). exact IH.
Qed.

Lemma fold_sq_nonneg (l : list (float * float)) :
  forall acc, nonneg acc -> nonneg (fold_left sq_step l acc).
Proof.
  induction l as [|p l IH]; intros acc Ha; [assumption|].
  cbn [fold_left]. apply IH. unfold sq_step.
  apply add_nonneg; [assumption | apply square_nonneg].
Qed.

Lemma sq_dist_nonneg (x c : list float) : nonneg (sq_dist x c).
Proof. unfold sq_dist. apply fold_sq_nonneg. exact nonneg_zero. Qed.

Lemma same_matrix_norm (C : matrix float) :
  Forall finite_row C -> same_matrix (map (map norm) C) C.
Proof.
  induction 1 as [|c C Fc FC IH]; constructor; [|exact IH].
  clear IH FC. induction Fc as [|v c Fv Fc IH]; constructor; [|exact IH].
  now apply norm_eqb.
Qed.

(** ** Centers placed on the observations *)

Lemma scan_app_gen {T : Type} `{Num T} `{NumOrd T} (x : list T)
      (l1 l2 : matrix T) :
  forall j st,
    scan x (l1 ++ l2) j st = scan x l2 (j + length l1) (scan x l1 j st).
Proof.
  induction l1 as [|c l1 IH]; intros j st; simpl.
  - now rewrite Nat.add_0_r.
  - rewrite IH. f_equal. lia.
Qed.

Lemma scan_norm (x : list float) (C : matrix float) :
  Forall finite_row C ->
  forall j st, scan x (map (map norm) C) j st = scan x C j st.
Proof.
  induction 1 as [|c C Fc FC IH]; intros j st; [reflexivity|].
  cbn [map scan]. rewrite IH. f_equal.
  unfold scan_step. now rewrite (sq_dist_norm x c Fc).
Qed.

Lemma nearest_norm (x : list float) (C : matrix float) :
  Forall finite_row C -> nearest (map (map norm) C) x = nearest C x.
Proof. intros F. unfold nearest. now rewrite scan_norm. Qed.

(** Before the center that equals [x]: the minimum stays positive. *)
Lemma scan_before (x : list float) (pre : matrix float) :
  (forall c, In c pre -> (0 <? sq_dist x c)%float = true) ->
  forall j st,
    (0 <? fst st)%float = true ->
    (0 <? fst (scan x pre j st))%float = true.
Proof.
  induction pre as [|c pre IH]; intros Hpre j st Hst; [assumption|].
  cbn [scan]. apply IH.
  - intros c' Hc'. apply Hpre. now right.
  - unfold scan_step. destruct (ltb (sq_dist x c) (fst st)); [|assumption].
    cbn [fst]. apply Hpre. now left.
Qed.

(** After it: no squared distance is below 0. *)
Lemma scan_after (x : list float) (post : matrix float) :
  forall j b, scan x post j (0%float, b) = (0%float, b).
Proof.
  induction post as [|c post IH]; intros j b; [reflexivity|].
  cbn [scan]. unfold scan_step. cbn [fst].
  change (ltb (sq_dist x c) 0%float) with (sq_dist x c <? 0)%float.
  rewrite (nonneg_not_below (sq_dist x c) 0%float (sq_dist_nonneg x c) eq_refl).
  apply IH.
Qed.

Lemma nearest_exact (x : list float) (pre post : matrix float) :
  finite_row x ->
  (forall c, In c pre -> (0 <? sq_dist x c)%float = true) ->
  nearest (pre ++ x :: post) x = (Z.of_nat (length pre) + 1)%Z.
Proof.
  intros Fx Hpre. unfold nearest.
  rewrite scan_app_gen. cbn [scan Nat.add].
  pose proof (scan_before x pre Hpre 0 (pos_inf, 0%Z) eq_refl) as B.
  destruct (scan x pre 0 (pos_inf, 0%Z)) as (md, b). cbn [fst] in B.
  unfold scan_step. cbn [fst]. rewrite (sq_dist_self x Fx).
  change (ltb 0%float md) with (0 <? md)%float. rewrite B.
  now rewrite scan_after.
Qed.

Lemma members_map {T : Type} (X : matrix T) (f : list T -> Z) (j : nat) :
  members X (map f X) j = filter (fun x => (f x =? Z.of_nat j + 1)%Z) X.
Proof.
  induction X as [|x X IH]; [reflexivity|].
  cbn [map]. rewrite members_cons, IH. reflexivity.
Qed.

Lemma filter_unique {A : Type} (p : A -> bool) (l : list A) (c : A) :
  NoDup l -> In c l ->
  (forall a, In a l -> (p a = true <-> a = c)) ->
  filter p l = [c].
Proof.
  induction 1 as [|a l Ha ND IH]; intros Hc Hp; [contradiction|].
  cbn [filter]. destruct Hc as [->|Hc].
  - rewrite (proj2 (Hp c (or_introl eq_refl)) eq_refl). f_equal.
    apply filter_none. intros b Hb.
    destruct (p b) eqn:E; [|reflexivity]. exfalso.
    apply (Hp b (or_intror Hb)) in E. subst. contradiction.
  - destruct (p a) eqn:E.
    + exfalso. apply (Hp a (or_introl eq_refl)) in E. subst. contradiction.
    + apply IH; [assumption|]. intros b Hb. apply Hp. now right.
Qed.

Lemma map_seq_nth {A B : Type} (g : A -> B) (l : list A) (dflt : A) :
  map (fun j => g (nth j l dflt)) (seq 0 (length l)) = map g l.
Proof.
  induction l as [|a l IH]; [reflexivity|].
  cbn [length seq map nth]. f_equal.
  rewrite <- seq_shift, map_map. exact IH.
Qed.

Lemma vec_add_zeros (c : list float) :
  vec_add (repeat 0%float (length c)) c = map (fun v => (0 + v)%float) c.
Proof.
  unfold vec_add. induction c as [|v c IH]; [reflexivity|].
  cbn [length repeat combine map fst snd]. now rewrite IH.
Qed.

(** The mean of a cluster with the single member [c]. *)
Lemma cluster_mean_single (c : list float) :
  cluster_mean (length c) [c] = map norm c.
Proof.
  unfold cluster_mean, vec_sum. cbn [fold_left length].
  change (@zero float float_Num) with 0%float.
  rewrite vec_add_zeros, map_map. reflexivity.
Qed.

Section CentersOnObservations.
Variables X C : matrix float.
Variables n d : nat.
Hypothesis SX : shaped n d X.
Hypothesis Hn : 1 <= n.
Hypothesis HP : Permutation C X.
Hypothesis HF : Forall finite_row X.
Hypothesis HD :
  forall i j x y, i <> j -> nth_error X i = Some x -> nth_error X j = Some y ->
                  (0 <? sq_dist x y)%float = true.

Lemma centers_shaped : shaped n d C.
Proof.
  destruct SX as (L & F). split.
  - rewrite (Permutation_length HP). exact L.
  - rewrite Forall_forall in *. intros c Hc. apply F.
    eapply Permutation_in; eauto.
Qed.

Lemma centers_finite : Forall finite_row C.
Proof.
  rewrite Forall_forall in *. intros c Hc. apply HF.
  eapply Permutation_in; eauto.
Qed.

Lemma observations_nodup : NoDup X.
Proof.
  apply NoDup_nth_error. intros i j Hi E.
  destruct (Nat.eq_dec i j) as [|Hne]; [assumption|]. exfalso.
  destruct (nth_error_lt X i Hi) as (x & Ex). rewrite Ex in E.
  pose proof (HD i j x x Hne Ex (eq_sym E)) as P.
  rewrite sq_dist_self in P; [discriminate P|].
  rewrite Forall_forall in HF. apply HF. eapply nth_error_In; eauto.
Qed.

Lemma centers_nodup : NoDup C.
Proof.
  eapply Permutation_NoDup; [apply Permutation_sym; exact HP|].
  exact observations_nodup.
Qed.

Lemma distinct_positive (x y : list float) :
  In x X -> In y X -> x <> y -> (0 <? sq_dist x y)%float = true.
Proof.
  intros Hx Hy Hne.
  destruct (In_nth_error _ _ Hx) as (i & Ei).
  destruct (In_nth_error _ _ Hy) as (j & Ej).
  apply (HD i j); auto. intros ->. congruence.
Qed.

Lemma nearest_center (x : list float) :
  In x X ->
  exists j, nth_error C j = Some x /\ nearest C x = (Z.of_nat j + 1)%Z.
Proof.
  intros Hx.
  assert (Hc : In x C) by (eapply Permutation_in; [apply Permutation_sym|]; eauto).
  destruct (in_split _ _ Hc) as (pre & post & E).
  exists (length pre). split.
  - rewrite E, nth_error_app2, Nat.sub_diag by lia. reflexivity.
  - rewrite E. apply nearest_exact.
    + rewrite Forall_forall in HF. now apply HF.
    + intros c Hpre. apply distinct_positive; auto.
      * eapply Permutation_in; [exact HP|]. rewrite E.
        apply in_or_app. now left.
      * intros ->. pose proof centers_nodup as ND. rewrite E in ND.
        apply NoDup_remove_2 in ND. apply ND. apply in_or_app. now left.
Qed.

Lemma on_centers_range :
  Forall (fun a => (1 <= a <= Z.of_nat n)%Z) (on_centers C X).
Proof.
  unfold on_centers. apply Forall_forall. intros a Ha.
  apply in_map_iff in Ha. destruct Ha as (x & <- & Hx).
  destruct (nearest_center x Hx) as (j & Ej & ->).
  assert (j < length C) by (apply nth_error_Some; congruence).
  destruct centers_shaped as (L & _). lia.
Qed.

Lemma on_centers_not_zero : all_eq (on_centers C X) (repeat 0%Z n) = false.
Proof.
  pose proof on_centers_range as R. unfold on_centers in *.
  destruct SX as (L & _). destruct X as [|x X']; [simpl in L; lia|].
  destruct n as [|n']; [lia|]. cbn [map repeat all_eq].
  inversion R as [|a l Ha _]; subst.
  replace (nearest C x =? 0)%Z with false; [reflexivity|].
  symmetry. apply Z.eqb_neq. lia.
Qed.

Lemma members_single (j : nat) (c : list float) :
  nth_error C j = Some c -> members X (on_centers C X) j = [c].
Proof.
  intros Ec. unfold on_centers. rewrite members_map.
  apply filter_unique.
  - exact observations_nodup.
  - eapply Permutation_in; [exact HP|]. eapply nth_error_In; eauto.
  - intros x Hx. destruct (nearest_center x Hx) as (j' & Ej' & ->).
    rewrite Z.eqb_eq. split.
    + intros E. assert (j' = j) as -> by lia. congruence.
    + intros ->. f_equal. f_equal.
      apply (proj1 (NoDup_nth_error C) centers_nodup).
      * apply nth_error_Some. congruence.
      * congruence.
Qed.

Lemma means_on_centers : means X (on_centers C X) n d = map (map norm) C.
Proof.
  destruct centers_shaped as (L & F).
  unfold means. rewrite <- (map_seq_nth (map norm) C []), L.
  apply map_ext_in. intros j Hj. apply in_seq in Hj.
  destruct (nth_error_lt C j) as (c & Ec); [lia|].
  rewrite (nth_error_nth _ _ _ Ec), (members_single j c Ec).
  rewrite <- (shaped_row centers_shaped Ec). apply cluster_mean_single.
Qed.

Lemma update_on_centers (rng : nat -> Z) (s : nat) :
  update_step X rng (on_centers C X) n n d s = Ok (map (map norm) C, s).
Proof.
  rewrite <- means_on_centers. apply update_step_no_empty.
  - exact SX.
  - unfold on_centers. rewrite length_map. now destruct SX.
  - exact on_centers_range.
  - intros j Hj. destruct centers_shaped as (L & _).
    destruct (nth_error_lt C j) as (c & Ec); [lia|].
    rewrite (members_single j c Ec). discriminate.
Qed.

Lemma moved_centers_shaped : shaped n d (map (map norm) C).
Proof.
  destruct centers_shaped as (L & F). split.
  - now rewrite length_map.
  - apply Forall_forall. intros r Hr. apply in_map_iff in Hr.
    destruct Hr as (c & <- & Hc). rewrite length_map.
    rewrite Forall_forall in F. now apply F.
Qed.

Lemma run_on_centers (rng : nat -> Z) (s : nat) (max_iter : Z) (tol : float) :
  (1 <= max_iter)%Z ->
  exists e,
    kmeans_cpp_loop rng s X C max_iter tol =
    Ok (mkResult (map (map norm) C) (on_centers C X) 1 e, s).
Proof.
  intros Hm. unfold kmeans_cpp_loop.
  assert (En : nrow X = n) by (now destruct SX).
  assert (Ek : nrow C = n) by (now destruct centers_shaped).
  rewrite En, Ek, (shaped_ncol SX Hn).
  destruct (Z.to_nat max_iter) as [|fuel] eqn:Ef; [lia|].
  cbn [iterate].
  rewrite (find_closest_centers_ok X C n n d SX centers_shaped). cbn [bind].
  fold (on_centers C X). rewrite on_centers_not_zero, update_on_centers. cbn [bind].
  rewrite (center_change_ok _ _ n d moved_centers_shaped centers_shaped).
  cbn [bind]. rewrite (change_norm C centers_finite).
  destruct (ltb 0%float tol).
  - eexists. reflexivity.
  - destruct fuel as [|fuel].
    + cbn [iterate]. assert (max_iter = 1%Z) as -> by lia.
      eexists. reflexivity.
    + cbn [iterate].
      rewrite (find_closest_centers_ok X _ n n d SX moved_centers_shaped).
      cbn [bind].
      replace (map (nearest (map (map norm) C)) X) with (on_centers C X).
      * replace (all_eq (on_centers C X) (on_centers C X)) with true
          by (symmetry; now apply all_eq_true).
        eexists. reflexivity.
      * unfold on_centers. apply map_ext. intros x. symmetry.
        apply nearest_norm. exact centers_finite.
Qed.
End CentersOnObservations.

(** C8, counterexample: the observations [0] and [2^-600], each with a
    center on it.  The squared distance [2^-1200] underflows to 0, so the
    second observation ties with the first center and is assigned to it;
    the first center moves to [2^-601] and the second, now empty, is
    reseeded. *)
Lemma underflow_merges_two_observations :
  ~ converges_at_once.
Proof.
  intros P.
  destruct (P [[0]; [0x1p-600]]%float [[0]; [0x1p-600]]%float 2 1 5%Z
              0x1p-30%float (fun _ => 0%Z) 0
              (mkResult [[0x1p-601]; [0]]%float [1; 1]%Z 1 ConvergedByTolerance)
              1) as (_ & S).
  - split; [reflexivity | repeat constructor].
  - lia.
  - apply Permutation_refl.
  - intros i j x y Hne Ei Ej.
    destruct i as [|[|[|i]]]; destruct j as [|[|[|j]]]; simpl in Ei, Ej;
      try discriminate; try (exfalso; apply Hne; reflexivity);
        injection Ei as <-; injection Ej as <-; reflexivity.
  - lia.
  - reflexivity.
  - cbn [res_centers] in S. inversion S as [|r0 c0 R0 C0 H0 _]; subst.
    inversion H0 as [|a b l l' Hab _]; subst.
    vm_compute in Hab. discriminate Hab.
Qed.

(** C8, as amended: if [k = n], the initial centers are the observations in
    some order, every coordinate is finite, and the computed squared distance
    of any two distinct observations is above 0 (it neither underflows nor is
    a NaN), then for every [max_iter >= 1] and every [tol] the engine returns
    [iterations_used = 1] and a center matrix equal to the initial one, entry
    by entry as [==] compares doubles. *)
Theorem centers_on_observations_converge
        (X C : matrix float) (n d : nat) (max_iter : Z) (tol : float)
        (rng : nat -> Z) (s : nat) :
  shaped n d X -> 1 <= n -> Permutation C X ->
  Forall finite_row X ->
  (forall i j x y,
      i <> j -> nth_error X i = Some x -> nth_error X j = Some y ->
      (0 <? sq_dist x y)%float = true) ->
  (1 <= max_iter)%Z ->
  exists r,
    kmeans_cpp_loop rng s X C max_iter tol = Ok (r, s) /\
    res_iter r = 1%Z /\
    same_matrix (res_centers r) C.
Proof.
  intros SX Hn HP HF HD Hm.
  destruct (run_on_centers X C n d SX Hn HP HF HD rng s max_iter tol Hm) as (e & E).
  eexists. split; [exact E|]. split; [reflexivity|].
  cbn [res_centers]. apply same_matrix_norm.
  eapply centers_finite; eauto.
Qed.

Lemma centers_on_observations_converge_witness :
  exists r,
    kmeans_cpp_loop (fun _ => 0%Z) 0 [[0]; [1]]%float [[1]; [0]]%float
                    10 0x1p-30%float = Ok (r, 0) /\
    res_iter r = 1%Z /\
    same_matrix (res_centers r) [[1]; [0]]%float.
Proof.
  apply (centers_on_observations_converge
           [[0]; [1]]%float [[1]; [0]]%float 2 1 10 0x1p-30%float
           (fun _ => 0%Z) 0).
  - split; [reflexivity | repeat constructor].
  - lia.
  - apply perm_swap.
  - repeat constructor.
  - intros i j x y Hne Ei Ej.
    destruct i as [|[|[|i]]]; destruct j as [|[|[|j]]]; simpl in Ei, Ej;
      try discriminate; try (exfalso; apply Hne; reflexivity);
        injection Ei as <-; injection Ej as <-; reflexivity.
  - lia.
Defined.

(** * Further properties of the two functions *)

(** ** binary64: the order that [<] and [<=] compute *)

Ltac compare_cases :=
  repeat match goal with
         | |- context [(?a ?= ?b)%Z] => destruct (Z.compare_spec a b)
         | |- context [PosDef.Pos.compare_cont Eq ?a ?b] =>
             change (PosDef.Pos.compare_cont Eq a b) with (a ?= b)%positive;
             destruct (Pos.compare_spec a b)
         end.

Lemma SFleb_ltb_trans (x y z : spec_float) :
  SFleb x y = true -> SFltb y z = true -> SFltb x z = true.
Proof.
  unfold SFleb, SFltb.
  destruct x as [sx|sx| |sx mx ex]; destruct y as [sy|sy| |sy my ey];
    destruct z as [sz|sz| |sz mz ez]; simpl;
      try destruct sx; try destruct sy; try destruct sz; simpl;
        try discriminate; auto;
          compare_cases; simpl; try discriminate; auto; lia.
Qed.

Lemma SFltb_irrefl (x : spec_float) : SFltb x x = false.
Proof.
  unfold SFltb. destruct x as [s|s| |s m e]; simpl; try destruct s; auto;
    rewrite Z.compare_refl;
    change (PosDef.Pos.compare_cont Eq m m) with (m ?= m)%positive;
    now rewrite Pos.compare_refl.
Qed.

Lemma ltb_irrefl (x : float) : (x <? x)%float = false.
Proof. rewrite FloatAxioms.ltb_spec. apply SFltb_irrefl. Qed.

Lemma leb_ltb_trans (x y z : float) :
  (x <=? y)%float = true -> (y <? z)%float = true -> (x <? z)%float = true.
Proof.
  rewrite FloatAxioms.leb_spec, !FloatAxioms.ltb_spec. apply SFleb_ltb_trans.
Qed.

Lemma ltb_leb (x y : float) : (x <? y)%float = true -> (x <=? y)%float = true.
Proof.
  rewrite FloatAxioms.leb_spec, FloatAxioms.ltb_spec. unfold SFltb, SFleb.
  destruct (SFcompare (Prim2SF x) (Prim2SF y)) as [[| |]|]; auto.
Qed.

(** A number that is not negative is below [R_PosInf] exactly when it is
    finite. *)
Lemma below_infinity_finite (v : float) :
  nonneg v -> (v <? infinity)%float = is_finite v.
Proof.
  unfold nonneg, is_finite, is_nan, is_infinity.
  rewrite FloatAxioms.ltb_spec, !FloatAxioms.eqb_spec, abs_spec.
  change (Prim2SF infinity) with (S754_infinity false).
  destruct (Prim2SF v) as [s|s| |s m e]; simpl; intros Hs; subst; auto.
  unfold SFeqb. simpl. rewrite Z.compare_refl.
  change (PosDef.Pos.compare_cont Eq m m) with (m ?= m)%positive.
  now rewrite Pos.compare_refl.
Qed.

(** A number that is not negative and compares below another is finite. *)
Lemma below_is_finite (v m : float) :
  nonneg v -> (v <? m)%float = true -> is_finite v = true.
Proof.
  unfold nonneg, is_finite, is_nan, is_infinity.
  rewrite FloatAxioms.ltb_spec, !FloatAxioms.eqb_spec, abs_spec.
  change (Prim2SF infinity) with (S754_infinity false).
  destruct (Prim2SF v) as [s|s| |s m0 e]; simpl; intros Hs; subst; auto.
  - destruct (Prim2SF m) as [s'|s'| |s' m' e']; simpl; try discriminate;
      destruct s'; discriminate.
  - intros _. unfold SFeqb. simpl. rewrite Z.compare_refl.
    change (PosDef.Pos.compare_cont Eq m0 m0) with (m0 ?= m0)%positive.
    now rewrite Pos.compare_refl.
Qed.

(** ** The assignment step picks the first of the nearest centers *)

Section FirstMinimum.
Variable x : list float.

Lemma first_minimum_step (pre : matrix float) (c : list float) (st : float * Z) :
  (snd st <= Z.of_nat (length pre))%Z ->
  first_minimum x pre st ->
  first_minimum x (pre ++ [c]) (scan_step x (length pre) c st).
Proof.
  destruct st as (md, b). intros Hb (Hsel & Hmin & Hfirst).
  cbn [fst snd] in *.
  unfold scan_step. cbn [fst snd].
  change (ltb (sq_dist x c) md) with (sq_dist x c <? md)%float.
  destruct (sq_dist x c <? md)%float eqn:Elt; unfold first_minimum; cbn [fst snd].
  - split; [|split].
    + right. exists c. split; [lia|]. split; [|split; [reflexivity|]].
      * replace (Z.to_nat (Z.of_nat (length pre) + 1 - 1)) with (length pre)
          by lia.
        rewrite nth_error_app2 by lia. now rewrite Nat.sub_diag.
      * exact (below_is_finite _ _ (sq_dist_nonneg x c) Elt).
    + intros c' Hin. apply in_app_or in Hin. destruct Hin as [Hin|[<-|[]]].
      * destruct (sq_dist x c' <? sq_dist x c)%float eqn:E; [|reflexivity].
        apply ltb_leb in E. pose proof (Hmin c' Hin) as Hc'.
        rewrite (leb_ltb_trans _ _ _ E Elt) in Hc'. discriminate Hc'.
      * apply ltb_irrefl.
    + intros j' c' Hj' Ec'. rewrite nth_error_app1 in Ec' by lia.
      destruct (sq_dist x c' <=? sq_dist x c)%float eqn:E; [|reflexivity].
      pose proof (leb_ltb_trans _ _ _ E Elt) as E'.
      rewrite (Hmin c') in E'; [discriminate|]. eapply nth_error_In; eauto.
  - split; [|split].
    + destruct Hsel as [Hsel|(c0 & H1 & Ec0 & Emd)]; [now left|].
      right. exists c0. split; [assumption|]. split; [|assumption].
      rewrite nth_error_app1; [assumption|].
      apply nth_error_Some. congruence.
    + intros c' Hin. apply in_app_or in Hin. destruct Hin as [Hin|[<-|[]]];
        [now apply Hmin | assumption].
    + intros j' c' Hj' Ec'. rewrite nth_error_app1 in Ec' by lia.
      now apply (Hfirst j').
Qed.

Lemma scan_first_minimum (cs : matrix float) :
  forall pre st,
    (snd st <= Z.of_nat (length pre))%Z ->
    first_minimum x pre st ->
    first_minimum x (pre ++ cs) (scan x cs (length pre) st).
Proof.
  induction cs as [|c cs IH]; intros pre st Hb Hst.
  - now rewrite app_nil_r.
  - cbn [scan].
    replace (pre ++ c :: cs) with ((pre ++ [c]) ++ cs)
      by (now rewrite <- app_assoc).
    replace (S (length pre)) with (length (pre ++ [c]))
      by (rewrite length_app; simpl; lia).
    apply IH.
    + rewrite length_app. simpl. unfold scan_step.
      destruct (ltb (sq_dist x c) (fst st)); cbn [snd]; lia.
    + now apply first_minimum_step.
Qed.

Lemma nearest_first_minimum (C : matrix float) :
  first_minimum x C (scan x C 0 (infinity, 0%Z)).
Proof.
  apply (scan_first_minimum C [] (infinity, 0%Z)).
  - simpl. lia.
  - split; [|split].
    + now left.
    + intros c' [].
    + intros j' c' _ E. destruct j'; discriminate E.
Qed.
End FirstMinimum.

(** Entry [i] of the output of the assignment step is [nearest] of row [i]. *)
Lemma assignment_entry {T : Type} `{Num T} `{NumOrd T}
      (X C : matrix T) (n k d : nat) (A : list Z) (i : nat) (x : list T) (a : Z) :
  shaped n d X -> shaped k d C ->
  find_closest_centers X C = Ok A ->
  nth_error X i = Some x -> nth_error A i = Some a ->
  a = nearest C x.
Proof.
  intros SX SC E Ex Ea.
  rewrite (find_closest_centers_ok X C n k d SX SC) in E. injection E as <-.
  rewrite nth_error_map, Ex in Ea. now injection Ea.
Qed.

(** X1: on well-shaped binary64 matrices the center that the assignment step
    names for an observation is a nearest one: its squared distance is
    finite, and no center has a squared distance that compares below it
    (lines 18-29). *)
Theorem no_center_is_closer
        (X C : matrix float) (n k d : nat) (A : list Z)
        (i : nat) (x : list float) (a : Z) :
  shaped n d X -> shaped k d C ->
  find_closest_centers X C = Ok A ->
  nth_error X i = Some x -> nth_error A i = Some a -> (1 <= a)%Z ->
  exists c,
    nth_error C (Z.to_nat (a - 1)) = Some c /\
    is_finite (sq_dist x c) = true /\
    forall c', In c' C -> (sq_dist x c' <? sq_dist x c)%float = false.
Proof.
  intros SX SC E Ex Ea Ha.
  pose proof (assignment_entry X C n k d A i x a SX SC E Ex Ea) as Hn.
  destruct (nearest_first_minimum x C) as (Hsel & Hmin & _).
  unfold nearest in Hn. change (@pos_inf float float_NumOrd) with infinity in Hn.
  rewrite <- Hn in Hsel.
  destruct Hsel as [(H0 & _)|(c & _ & Ec & Emd & Hfin)]; [lia|].
  exists c. split; [exact Ec|]. split; [exact Hfin|].
  intros c' Hin. rewrite <- Emd. now apply Hmin.
Qed.

Lemma no_center_is_closer_witness :
  exists c,
    nth_error [[5]; [0]; [2]]%float (Z.to_nat (2 - 1)) = Some c /\
    is_finite (sq_dist [1%float] c) = true /\
    forall c', In c' [[5]; [0]; [2]]%float ->
               (sq_dist [1%float] c' <? sq_dist [1%float] c)%float = false.
Proof.
  apply (no_center_is_closer [[1]; [6]]%float [[5]; [0]; [2]]%float 2 3 1
                             [2; 1]%Z 0 [1%float] 2).
  - split; [reflexivity | repeat constructor].
  - split; [reflexivity | repeat constructor].
  - reflexivity.
  - reflexivity.
  - reflexivity.
  - lia.
Defined.

(** X2: ties go to the center of lowest index.  On well-shaped binary64
    matrices every center that comes before the named one is strictly
    farther from the observation (or its distance is a NaN): its squared
    distance does not compare at or below that of the named center (the
    strict test of line 25). *)
Theorem ties_go_to_the_first_center
        (X C : matrix float) (n k d : nat) (A : list Z)
        (i : nat) (x : list float) (a : Z) (j' : nat) (c c' : list float) :
  shaped n d X -> shaped k d C ->
  find_closest_centers X C = Ok A ->
  nth_error X i = Some x -> nth_error A i = Some a ->
  nth_error C (Z.to_nat (a - 1)) = Some c ->
  (Z.of_nat j' < a - 1)%Z -> nth_error C j' = Some c' ->
  (sq_dist x c' <=? sq_dist x c)%float = false.
Proof.
  intros SX SC E Ex Ea Ec Hj' Ec'.
  pose proof (assignment_entry X C n k d A i x a SX SC E Ex Ea) as Hn.
  destruct (nearest_first_minimum x C) as (Hsel & _ & Hfirst).
  unfold nearest in Hn. change (@pos_inf float float_NumOrd) with infinity in Hn.
  rewrite <- Hn in Hsel, Hfirst.
  destruct Hsel as [(H0 & _)|(c0 & _ & Ec0 & Emd & _)]; [lia|].
  assert (c0 = c) as -> by congruence.
  rewrite <- Emd. now apply (Hfirst j').
Qed.

Lemma ties_go_to_the_first_center_witness :
  (sq_dist [1%float] [5%float] <=? sq_dist [1%float] [0%float])%float = false.
Proof.
  apply (ties_go_to_the_first_center
           [[1]; [6]]%float [[5]; [0]; [2]]%float 2 3 1
           [2; 1]%Z 0 [1%float] 2 0 [0%float] [5%float]).
  - split; [reflexivity | repeat constructor].
  - split; [reflexivity | repeat constructor].
  - reflexivity.
  - reflexivity.
  - reflexivity.
  - reflexivity.
  - simpl. lia.
  - reflexivity.
Defined.

(** X3: on well-shaped binary64 matrices an entry of the assignment vector
    is 0, the initial value of [best_cluster], exactly when the squared
    distance of the observation to every center is not finite (it overflowed
    to [+Inf] or is a NaN); with no center at all every entry is 0. *)
Theorem entry_zero_iff_no_finite_distance
        (X C : matrix float) (n k d : nat) (A : list Z)
        (i : nat) (x : list float) (a : Z) :
  shaped n d X -> shaped k d C ->
  find_closest_centers X C = Ok A ->
  nth_error X i = Some x -> nth_error A i = Some a ->
  (a = 0%Z <-> forall c, In c C -> is_finite (sq_dist x c) = false).
Proof.
  intros SX SC E Ex Ea.
  pose proof (assignment_entry X C n k d A i x a SX SC E Ex Ea) as Hn.
  unfold nearest in Hn. split.
  - intros H0 c Hin.
    destruct (nearest_first_minimum x C) as (Hsel & Hmin & _).
    change (@pos_inf float float_NumOrd) with infinity in Hn.
    rewrite <- Hn, H0 in Hsel.
    destruct Hsel as [(_ & Emd)|(c0 & H1 & _)]; [|lia].
    rewrite <- (below_infinity_finite _ (sq_dist_nonneg x c)).
    rewrite <- Emd. now apply Hmin.
  - intros Hall. rewrite Hn, scan_misses; [reflexivity|].
    intros c Hin. change ((sq_dist x c <? infinity)%float = false).
    rewrite (below_infinity_finite _ (sq_dist_nonneg x c)). now apply Hall.
Qed.

Lemma entry_zero_iff_no_finite_distance_witness :
  0%Z = 0%Z <->
  forall c, In c [[0%float]; [1%float]] -> is_finite (sq_dist [huge] c) = false.
Proof.
  apply (entry_zero_iff_no_finite_distance
           [[huge]; [0%float]] [[0%float]; [1%float]] 2 2 1 [0; 1]%Z 0 [huge] 0).
  - split; [reflexivity | repeat constructor].
  - split; [reflexivity | repeat constructor].
  - reflexivity.
  - reflexivity.
  - reflexivity.
Defined.

(** ** The main loop: what a returned list holds *)

Section Returned.
Context {T : Type} `{Num T} `{NumOrd T}.
Variable X : matrix T.
Variable rng : nat -> Z.
Variable max_iter : Z.
Variable tol : T.

(** The counter reported by each of the three return statements. *)
Lemma iterate_iter_range (n k d : nat) :
  forall fuel i C A old s r s',
    iterate X rng max_iter tol n k d fuel i C A old s = Ok (r, s') ->
    match res_exit r with
    | ConvergedByStability => (i <= res_iter r < i + Z.of_nat fuel)%Z
    | ConvergedByTolerance => (i + 1 <= res_iter r <= i + Z.of_nat fuel)%Z
    | StoppedAtMaxIter => res_iter r = max_iter
    end.
Proof.
  induction fuel as [|fuel IH]; intros i C A old s r s' E.
  - simpl in E. injection E as <- <-. reflexivity.
  - cbn [iterate] in E. apply bind_ok in E. destruct E as (A' & _ & E).
    destruct (all_eq A' old).
    + injection E as <- <-. cbn [res_exit res_iter]. lia.
    + apply bind_ok in E. destruct E as ((N, s1) & _ & E).
      apply bind_ok in E. destruct E as (cc & _ & E).
      destruct (ltb cc tol).
      * injection E as <- <-. cbn [res_exit res_iter]. lia.
      * apply IH in E. destruct (res_exit r); lia.
Qed.

(** The shape of the centers and the length of the cluster vector. *)
Lemma iterate_shapes (k d : nat) :
  forall fuel i C A old s r s',
    shaped k d C -> length A = nrow X ->
    iterate X rng max_iter tol (nrow X) k d fuel i C A old s = Ok (r, s') ->
    shaped k d (res_centers r) /\ length (res_cluster r) = nrow X.
Proof.
  induction fuel as [|fuel IH]; intros i C A old s r s' SC LA E.
  - simpl in E. injection E as <- <-. now split.
  - cbn [iterate] in E. apply bind_ok in E. destruct E as (A' & EA & E).
    apply find_closest_centers_length in EA as LA'.
    destruct (all_eq A' old).
    + injection E as <- <-. now split.
    + apply bind_ok in E. destruct E as ((N, s1) & EU & E).
      apply update_step_shaped in EU.
      apply bind_ok in E. destruct E as (cc & _ & E).
      destruct (ltb cc tol).
      * injection E as <- <-. now split.
      * exact (IH _ _ _ _ _ _ _ EU LA' E).
Qed.

(** Which of the two steps produced the returned pair. *)
Lemma iterate_returned_pair (n k d : nat) :
  forall fuel i C A old s r s',
    (fuel = 0 -> exists s0, update_step X rng A n k d s0 = Ok (C, s)) ->
    iterate X rng max_iter tol n k d fuel i C A old s = Ok (r, s') ->
    match res_exit r with
    | ConvergedByStability =>
        find_closest_centers X (res_centers r) = Ok (res_cluster r)
    | _ =>
        exists s0,
          update_step X rng (res_cluster r) n k d s0 = Ok (res_centers r, s')
    end.
Proof.
  induction fuel as [|fuel IH]; intros i C A old s r s' Hlast E.
  - simpl in E. injection E as <- <-. cbn [res_exit res_cluster res_centers].
    now apply Hlast.
  - cbn [iterate] in E. apply bind_ok in E. destruct E as (A' & EA & E).
    destruct (all_eq A' old).
    + injection E as <- <-. exact EA.
    + apply bind_ok in E. destruct E as ((N, s1) & EU & E).
      apply bind_ok in E. destruct E as (cc & _ & E).
      destruct (ltb cc tol).
      * injection E as <- <-. cbn [res_exit res_cluster res_centers]. eauto.
      * apply IH in E; [exact E|]. intros _. eauto.
Qed.

(** A stability exit after the first iteration: the previous assignment
    vector, from which the centers were computed, is the returned one. *)
Lemma iterate_stable_pair (n k d : nat) :
  forall fuel i C A old s r s',
    ((1 <= i)%Z -> exists s0, update_step X rng old n k d s0 = Ok (C, s)) ->
    iterate X rng max_iter tol n k d fuel i C A old s = Ok (r, s') ->
    res_exit r = ConvergedByStability -> (1 <= res_iter r)%Z ->
    find_closest_centers X (res_centers r) = Ok (res_cluster r) /\
    exists s0,
      update_step X rng (res_cluster r) n k d s0 = Ok (res_centers r, s').
Proof.
  induction fuel as [|fuel IH]; intros i C A old s r s' Hprev E Hex Hit.
  - simpl in E. injection E as <- <-. discriminate Hex.
  - cbn [iterate] in E. apply bind_ok in E. destruct E as (A' & EA & E).
    destruct (all_eq A' old) eqn:Eall.
    + injection E as <- <-. cbn [res_iter res_cluster res_centers] in *.
      apply all_eq_true in Eall. subst old. split; [exact EA|].
      now apply Hprev.
    + apply bind_ok in E. destruct E as ((N, s1) & EU & E).
      apply bind_ok in E. destruct E as (cc & _ & E).
      destruct (ltb cc tol).
      * injection E as <- <-. discriminate Hex.
      * apply IH in E; auto. intros _. eauto.
Qed.
End Returned.

(** X4: the iteration counter that a run reports.  A stability exit reports
    the counter [i] of its iteration, in [[0, max_iter - 1]]; a tolerance
    exit reports [i + 1], in [[1, max_iter]]; the return after the loop
    reports [max_iter] itself.  So [iter] lies in [[0, max_iter]] whenever
    [max_iter >= 0], and is the negative [max_iter] otherwise
    (lines 46, 56, 104, 113). *)
Theorem iterations_used_range
        {T : Type} `{Num T} `{NumOrd T}
        (rng : nat -> Z) (s : nat) (X C : matrix T) (max_iter : Z) (tol : T)
        (r : result T) (s' : nat) :
  kmeans_cpp_loop rng s X C max_iter tol = Ok (r, s') ->
  match res_exit r with
  | ConvergedByStability => (0 <= res_iter r < max_iter)%Z
  | ConvergedByTolerance => (1 <= res_iter r <= max_iter)%Z
  | StoppedAtMaxIter => res_iter r = max_iter
  end /\
  ((0 <= max_iter)%Z -> (0 <= res_iter r <= max_iter)%Z) /\
  ((max_iter < 0)%Z -> res_iter r = max_iter).
Proof.
  unfold kmeans_cpp_loop. intros E.
  apply iterate_iter_range in E.
  destruct (res_exit r); repeat split; lia.
Qed.

Lemma iterations_used_range_witness :
  match res_exit (mkResult [[0; 0.5]; [10; 0.5]]%float [1; 1; 2; 2]%Z 1
                           ConvergedByStability) with
  | ConvergedByStability =>
      (0 <= res_iter (mkResult [[0; 0.5]; [10; 0.5]]%float [1; 1; 2; 2]%Z 1
                               ConvergedByStability) < 10)%Z
  | ConvergedByTolerance =>
      (1 <= res_iter (mkResult [[0; 0.5]; [10; 0.5]]%float [1; 1; 2; 2]%Z 1
                               ConvergedByStability) <= 10)%Z
  | StoppedAtMaxIter =>
      res_iter (mkResult [[0; 0.5]; [10; 0.5]]%float [1; 1; 2; 2]%Z 1
                         ConvergedByStability) = 10%Z
  end /\
  ((0 <= 10)%Z ->
   (0 <= res_iter (mkResult [[0; 0.5]; [10; 0.5]]%float [1; 1; 2; 2]%Z 1
                            ConvergedByStability) <= 10)%Z) /\
  ((10 < 0)%Z ->
   res_iter (mkResult [[0; 0.5]; [10; 0.5]]%float [1; 1; 2; 2]%Z 1
                      ConvergedByStability) = 10%Z).
Proof.
  apply (iterations_used_range (fun _ => 0%Z) 0 X_two_groups C_two_groups
                               10 0%float _ 0).
  reflexivity.
Defined.

(** X5: the shapes of the returned list.  On [n >= 1] well-shaped
    observations and [k] centers of the same width, the returned center
    matrix has the [k] rows and [d] columns of the initial one, and the
    returned cluster vector has one entry per observation, after any number
    of iterations and through any of the three return statements. *)
Theorem result_keeps_the_shapes
        {T : Type} `{Num T} `{NumOrd T}
        (rng : nat -> Z) (s : nat) (X C : matrix T) (n k d : nat)
        (max_iter : Z) (tol : T) (r : result T) (s' : nat) :
  shaped n d X -> 1 <= n -> shaped k d C ->
  kmeans_cpp_loop rng s X C max_iter tol = Ok (r, s') ->
  shaped k d (res_centers r) /\ length (res_cluster r) = n.
Proof.
  intros SX Hn SC E. unfold kmeans_cpp_loop in E.
  assert (Ek : nrow C = k) by (now destruct SC).
  assert (En : nrow X = n) by (now destruct SX).
  rewrite Ek, (shaped_ncol SX Hn) in E. rewrite <- En.
  apply (iterate_shapes X rng max_iter tol k d _ _ _ _ _ _ _ _ SC) in E;
    [exact E | apply repeat_length].
Qed.

Lemma result_keeps_the_shapes_witness :
  shaped 2 2 (res_centers (mkResult [[0; 0.5]; [10; 0.5]]%float [1; 1; 2; 2]%Z 1
                                    ConvergedByStability)) /\
  length (res_cluster (mkResult [[0; 0.5]; [10; 0.5]]%float [1; 1; 2; 2]%Z 1
                                ConvergedByStability)) = 4.
Proof.
  apply (result_keeps_the_shapes (fun _ => 0%Z) 0 X_two_groups C_two_groups
                                 4 2 2 10 0%float _ 0).
  - split; [reflexivity | repeat constructor].
  - lia.
  - split; [reflexivity | repeat constructor].
  - reflexivity.
Defined.

(** X6: which step produced the returned pair ([max_iter >= 1]).  After a
    stability exit the returned cluster vector is the assignment of the
    observations to the returned centers.  After a tolerance exit, and after
    the return that follows the loop, the returned centers are the output of
    the update step on the returned cluster vector: the cluster vector was
    computed from the centers of the iteration before (lines 49, 54-55, 98,
    102-103, 111-112). *)
Theorem returned_pair_by_exit
        {T : Type} `{Num T} `{NumOrd T}
        (rng : nat -> Z) (s : nat) (X C : matrix T) (max_iter : Z) (tol : T)
        (r : result T) (s' : nat) :
  (1 <= max_iter)%Z ->
  kmeans_cpp_loop rng s X C max_iter tol = Ok (r, s') ->
  match res_exit r with
  | ConvergedByStability =>
      find_closest_centers X (res_centers r) = Ok (res_cluster r)
  | _ =>
      exists s0,
        update_step X rng (res_cluster r) (nrow X) (nrow C) (ncol X) s0 =
        Ok (res_centers r, s')
  end.
Proof.
  unfold kmeans_cpp_loop. intros Hm E.
  apply iterate_returned_pair in E; [exact E | lia].
Qed.

Lemma returned_pair_by_exit_witness :
  exists s0,
    update_step X_two_groups (fun _ => 0%Z) [1; 1; 2; 2]%Z
                (nrow X_two_groups) (nrow C_two_groups) (ncol X_two_groups) s0 =
    Ok ([[0; 0.5]; [10; 0.5]]%float, 0).
Proof.
  refine (returned_pair_by_exit
            (fun _ => 0%Z) 0 X_two_groups C_two_groups 10 1000%float
            (mkResult [[0; 0.5]; [10; 0.5]]%float [1; 1; 2; 2]%Z 1
                      ConvergedByTolerance) 0 _ _).
  - lia.
  - reflexivity.
Defined.

(** X7: a stability exit after at least one iteration returns a fixed point
    of the two steps: the returned cluster vector is the assignment of the
    observations to the returned centers, and the returned centers are the
    output of the update step on the returned cluster vector. *)
Theorem stability_exit_is_a_fixed_point
        {T : Type} `{Num T} `{NumOrd T}
        (rng : nat -> Z) (s : nat) (X C : matrix T) (max_iter : Z) (tol : T)
        (r : result T) (s' : nat) :
  kmeans_cpp_loop rng s X C max_iter tol = Ok (r, s') ->
  res_exit r = ConvergedByStability -> (1 <= res_iter r)%Z ->
  find_closest_centers X (res_centers r) = Ok (res_cluster r) /\
  exists s0,
    update_step X rng (res_cluster r) (nrow X) (nrow C) (ncol X) s0 =
    Ok (res_centers r, s').
Proof.
  unfold kmeans_cpp_loop. intros E Hex Hit.
  apply iterate_stable_pair in E; auto. intros Hi. lia.
Qed.

Lemma stability_exit_is_a_fixed_point_witness :
  find_closest_centers X_two_groups [[0; 0.5]; [10; 0.5]]%float =
  Ok [1; 1; 2; 2]%Z /\
  exists s0,
    update_step X_two_groups (fun _ => 0%Z) [1; 1; 2; 2]%Z
                (nrow X_two_groups) (nrow C_two_groups) (ncol X_two_groups) s0 =
    Ok ([[0; 0.5]; [10; 0.5]]%float, 0).
Proof.
  refine (stability_exit_is_a_fixed_point
            (fun _ => 0%Z) 0 X_two_groups C_two_groups 10 0%float
            (mkResult [[0; 0.5]; [10; 0.5]]%float [1; 1; 2; 2]%Z 1
                      ConvergedByStability) 0 _ _ _).
  - reflexivity.
  - reflexivity.
  - simpl. lia.
Defined.

(** ** Where a run can leave the bounds *)

Section Faults.
Context {T : Type} `{Num T} `{NumOrd T}.
Variable X : matrix T.
Variable rng : nat -> Z.

Lemma nearest_range (C : matrix T) (k : nat) (x : list T) :
  length C = k -> (0 <= nearest C x <= Z.of_nat k)%Z.
Proof.
  intros <-. pose proof (scan_range x C 0 (pos_inf, 0%Z)) as R.
  simpl in R. unfold nearest. apply R. lia.
Qed.

Lemma nearest_zero (C : matrix T) (x : list T) :
  nearest C x = 0%Z ->
  forall c, In c C -> ltb (sq_dist x c) pos_inf = false.
Proof.
  intros E c Hin. destruct (ltb (sq_dist x c) pos_inf) eqn:Elt; [|reflexivity].
  pose proof (scan_finds x C 0 0%Z (ex_intro _ c (conj Hin Elt))) as P.
  unfold nearest in E. lia.
Qed.

(** A run that leaves the bounds does so in the update step of an iteration
    [t] whose assignment vector holds a 0; the run cut to [t] iterations
    reaches the return after the loop, with the centers of that iteration. *)
Lemma iterate_fault (max_iter : Z) (tol : T) (n k d : nat) :
  shaped n d X -> (forall t, (0 <= rng t < Z.of_nat n)%Z) ->
  forall fuel i C A0 old s,
    shaped k d C ->
    iterate X rng max_iter tol n k d fuel i C A0 old s = Fault ->
    exists t C' A' s_t x,
      t < fuel /\
      (forall max_iter',
          iterate X rng max_iter' tol n k d t i C A0 old s =
          Ok (mkResult C' A' max_iter' StoppedAtMaxIter, s_t)) /\
      shaped k d C' /\ In x X /\ nearest C' x = 0%Z /\
      update_step X rng (map (nearest C') X) n k d s_t = Fault.
Proof.
  intros SX Hrng. induction fuel as [|fuel IH]; intros i C A0 old s SC E.
  - discriminate E.
  - cbn [iterate] in E.
    rewrite (find_closest_centers_ok X C n k d SX SC) in E. cbn [bind] in E.
    destruct (all_eq (map (nearest C) X) old) eqn:Eall; [discriminate E|].
    assert (LA : length (map (nearest C) X) = n)
      by (rewrite length_map; now destruct SX).
    destruct (in_dec Z.eq_dec 0%Z (map (nearest C) X)) as [Hin|Hnin].
    + exists 0, C, A0, s.
      apply in_map_iff in Hin. destruct Hin as (x & Hx & Hin).
      exists x. split; [lia|]. split; [reflexivity|].
      repeat split; try assumption; try (now destruct SC).
      destruct (update_step X rng (map (nearest C) X) n k d s)
        as [(N, s1)|] eqn:EU; [|reflexivity].
      exfalso. apply update_step_range in EU; [|exact LA].
      rewrite Forall_forall in EU.
      specialize (EU (nearest C x) (in_map _ _ _ Hin)). lia.
    + assert (FA : Forall (fun a => (1 <= a <= Z.of_nat k)%Z)
                          (map (nearest C) X)).
      { apply Forall_forall. intros a Ha.
        assert (a <> 0%Z) by (intros ->; now apply Hnin).
        apply in_map_iff in Ha. destruct Ha as (x & <- & _).
        pose proof (nearest_range C k x (proj1 SC)). lia. }
      pose proof (update_step_ok X rng n k d s _ SX LA FA
                                 (fun j _ _ => Hrng _)) as EU.
      destruct (update X rng (map (nearest C) X) k d s) as (N, s1).
      rewrite EU in E. cbn [bind] in E.
      pose proof (update_step_shaped X rng _ n k d s N s1 EU) as SN.
      rewrite (center_change_ok N C k d SN SC) in E. cbn [bind] in E.
      destruct (ltb (change N C) tol) eqn:Elt; [discriminate E|].
      destruct (IH _ _ _ _ _ SN E)
        as (t & C' & A' & s_t & x & Ht & Erun & SC' & Hx & E0 & EF).
      exists (Datatypes.S t), C', A', s_t, x. split; [lia|].
      split; [|repeat split; try assumption; now destruct SC'].
      intros max_iter'. cbn [iterate].
      rewrite (find_closest_centers_ok X C n k d SX SC). cbn [bind].
      rewrite Eall, EU. cbn [bind].
      rewrite (center_change_ok N C k d SN SC). cbn [bind].
      rewrite Elt. apply Erun.
Qed.
End Faults.

(** X8: the only way out of the bounds.  On [n >= 1] well-shaped
    observations, [k] centers of the same width and draws in [[0, n)], a run
    that leaves the bounds of a container does so in the update step of one
    of its iterations, [t < max_iter], on an assignment vector that holds a
    0.  The run cut to [t] iterations reaches the return after the loop; on
    the centers [C'] that it returns, the centers of iteration [t], the
    assignment step gives a vector [A] with an entry 0, for an observation
    that has no center of [C'] at a squared distance comparing below
    [R_PosInf], and the update step on [A] subscripts [counts] with [-1]
    (lines 67-68). *)
Theorem fault_needs_an_unreachable_observation
        {T : Type} `{Num T} `{NumOrd T}
        (rng : nat -> Z) (s : nat) (X C : matrix T) (n k d : nat)
        (max_iter : Z) (tol : T) :
  shaped n d X -> 1 <= n -> shaped k d C ->
  (forall t, (0 <= rng t < Z.of_nat n)%Z) ->
  kmeans_cpp_loop rng s X C max_iter tol = Fault ->
  exists t C' A' s_t A i x,
    (Z.of_nat t < max_iter)%Z /\
    kmeans_cpp_loop rng s X C (Z.of_nat t) tol =
    Ok (mkResult C' A' (Z.of_nat t) StoppedAtMaxIter, s_t) /\
    find_closest_centers X C' = Ok A /\
    update_step X rng A n k d s_t = Fault /\
    nth_error X i = Some x /\ nth_error A i = Some 0%Z /\
    forall c, In c C' -> ltb (sq_dist x c) pos_inf = false.
Proof.
  intros SX Hn SC Hrng E. unfold kmeans_cpp_loop in *.
  assert (Ek : nrow C = k) by (now destruct SC).
  assert (En : nrow X = n) by (now destruct SX).
  rewrite Ek, En, (shaped_ncol SX Hn) in *.
  destruct (iterate_fault X rng max_iter tol n k d SX Hrng _ _ _ _ _ _ SC E)
    as (t & C' & A' & s_t & x & Ht & Erun & SC' & Hx & E0 & EF).
  destruct (In_nth_error _ _ Hx) as (i & Ex).
  exists t, C', A', s_t, (map (nearest C') X), i, x.
  split; [lia|]. split; [|split; [|split; [|split; [|split]]]].
  - rewrite Nat2Z.id. apply Erun.
  - exact (find_closest_centers_ok X C' n k d SX SC').
  - exact EF.
  - exact Ex.
  - rewrite nth_error_map, Ex. cbn [option_map]. now rewrite E0.
  - now apply nearest_zero.
Qed.

Lemma fault_needs_an_unreachable_observation_witness :
  exists t C' A' s_t A i x,
    (Z.of_nat t < 3)%Z /\
    kmeans_cpp_loop (fun _ => 0%Z) 0 [[huge]; [0%float]] [[0%float]]
                    (Z.of_nat t) 0%float =
    Ok (mkResult C' A' (Z.of_nat t) StoppedAtMaxIter, s_t) /\
    find_closest_centers [[huge]; [0%float]] C' = Ok A /\
    update_step [[huge]; [0%float]] (fun _ => 0%Z) A 2 1 1 s_t = Fault /\
    nth_error [[huge]; [0%float]] i = Some x /\ nth_error A i = Some 0%Z /\
    forall c, In c C' -> ltb (sq_dist x c) pos_inf = false.
Proof.
  apply (fault_needs_an_unreachable_observation
           (fun _ => 0%Z) 0 [[huge]; [0%float]] [[0%float]] 2 1 1 3 0%float).
  - split; [reflexivity | repeat constructor].
  - lia.
  - split; [reflexivity | repeat constructor].
  - intros t. simpl. lia.
  - reflexivity.
Defined.

(** X9: the update step leaves the bounds exactly on an entry outside
    [[1, k]].  On well-shaped observations, an assignment vector of their
    length and draws in [[0, n)], lines 63-87 fault if and only if some
    entry of the assignment vector is below 1 or above [k]. *)
Theorem update_step_faults_iff
        {T : Type} `{Num T} (X : matrix T) (rng : nat -> Z) (A : list Z)
        (n k d s : nat) :
  shaped n d X -> length A = n ->
  (forall t, (0 <= rng t < Z.of_nat n)%Z) ->
  (update_step X rng A n k d s = Fault <->
   Exists (fun a => (a < 1 \/ Z.of_nat k < a)%Z) A).
Proof.
  intros SX LA Hrng. split.
  - intros E.
    destruct (Forall_Exists_dec (fun a => (1 <= a <= Z.of_nat k)%Z)
                (fun a => match Z_le_dec 1 a, Z_le_dec a (Z.of_nat k) with
                          | left p, left q => left (conj p q)
                          | right p, _ => right (fun h => p (proj1 h))
                          | _, right q => right (fun h => q (proj2 h))
                          end) A) as [FA|EA].
    + rewrite (update_step_ok X rng n k d s A SX LA FA (fun j _ _ => Hrng _))
        in E. discriminate E.
    + eapply Exists_impl; [|exact EA]. intros a Ha. cbv beta in Ha. lia.
  - intros EA. destruct (update_step X rng A n k d s) as [(N, s1)|] eqn:E;
      [|reflexivity].
    pose proof (update_step_range X rng A n k d s N s1 E LA) as FA.
    exfalso. apply Exists_exists in EA. destruct EA as (a & Hin & Ha).
    rewrite Forall_forall in FA. specialize (FA a Hin). lia.
Qed.

Lemma update_step_faults_iff_witness :
  update_step [[huge]; [0%float]] (fun _ => 0%Z) [0; 1]%Z 2 1 1 0 = Fault <->
  Exists (fun a => (a < 1 \/ Z.of_nat 1 < a)%Z) [0; 1]%Z.
Proof.
  apply (update_step_faults_iff [[huge]; [0%float]] (fun _ => 0%Z) [0; 1]%Z
                                2 1 1 0).
  - split; [reflexivity | repeat constructor].
  - reflexivity.
  - intros t. simpl. lia.
Defined.

(** X10: one draw per empty cluster, in the order of the clusters.  On a
    well-shaped observation matrix, an assignment vector of 1-based indices
    and draws in [[0, n)], the update step takes from the random source as
    many values as there are clusters without members, and the cluster [j]
    without members receives the row selected by the draw whose number is
    the number of empty clusters before [j]; with no empty cluster the
    source is not read (lines 75-87). *)
Theorem one_draw_per_empty_cluster
        {T : Type} `{Num T} (X : matrix T) (rng : nat -> Z) (A : list Z)
        (n k d s : nat) :
  shaped n d X -> length A = n ->
  Forall (fun a => (1 <= a <= Z.of_nat k)%Z) A ->
  (forall t, (0 <= rng t < Z.of_nat n)%Z) ->
  exists C',
    update_step X rng A n k d s = Ok (C', s + empties_before X A k) /\
    (forall j, j < k -> members X A j = [] ->
               nth_error C' j =
               nth_error X (Z.to_nat (rng (s + empties_before X A j)))) /\
    ((forall j, j < k -> members X A j <> []) -> empties_before X A k = 0).
Proof.
  intros SX LA FA Hrng.
  exists (fst (update X rng A k d s)). split; [|split].
  - now rewrite (update_step_ok X rng n k d s A SX LA FA (fun j _ _ => Hrng _)).
  - intros j Hj Hm. rewrite (nth_error_update X rng A k d s j Hj).
    unfold new_center. rewrite Hm.
    specialize (Hrng (s + empties_before X A j)).
    destruct (nth_error_lt X (Z.to_nat (rng (s + empties_before X A j))))
      as (xr & Exr); [destruct SX; lia|].
    rewrite Exr. f_equal. now apply nth_error_nth.
  - intros Hne. unfold empties_before.
    rewrite filter_none; [reflexivity|].
    intros j Hj. apply in_seq in Hj. specialize (Hne j ltac:(lia)).
    destruct (members X A j); [congruence | reflexivity].
Qed.

Lemma one_draw_per_empty_cluster_witness :
  exists C',
    update_step [[0]; [1]]%float (fun t => if t =? 0 then 1%Z else 0%Z)
                [2; 2]%Z 2 3 1 0 =
    Ok (C', 0 + empties_before [[0]; [1]]%float [2; 2]%Z 3) /\
    (forall j, j < 3 -> members [[0]; [1]]%float [2; 2]%Z j = [] ->
               nth_error C' j =
               nth_error [[0]; [1]]%float
                         (Z.to_nat
                            ((fun t => if t =? 0 then 1%Z else 0%Z)
                               (0 + empties_before [[0]; [1]]%float [2; 2]%Z j)))) /\
    ((forall j, j < 3 -> members [[0]; [1]]%float [2; 2]%Z j <> []) ->
     empties_before [[0]; [1]]%float [2; 2]%Z 3 = 0).
Proof.
  apply (one_draw_per_empty_cluster [[0]; [1]]%float
           (fun t => if t =? 0 then 1%Z else 0%Z) [2; 2]%Z 2 3 1 0).
  - split; [reflexivity | repeat constructor].
  - reflexivity.
  - repeat constructor; simpl; lia.
  - intros t. destruct (t =? 0); lia.
Defined.

(** ** Inputs without observations, without centers, or of two widths *)

Lemma vset_repeat {A : Type} (a : A) (n i : nat) :
  i < n -> vset (repeat a n) i a = Ok (repeat a n).
Proof.
  intros L. replace n with (i + S (n - S i)) by lia.
  rewrite repeat_app. cbn [repeat].
  pose proof (vset_app (repeat a i) (repeat a (n - S i)) a a) as V.
  now rewrite repeat_length in V.
Qed.

(** Without a center the scan leaves [best_cluster] at 0 for every row. *)
Lemma find_closest_centers_no_center {T : Type} `{Num T} `{NumOrd T}
      (X : matrix T) :
  find_closest_centers X [] = Ok (repeat 0%Z (nrow X)).
Proof.
  unfold find_closest_centers, for_.
  loop_inv (fun (_ : nat) A => A = repeat 0%Z (nrow X)) as (r & E & P).
  - reflexivity.
  - intros i st Hi ->. cbn [nrow length closest_loop for_ for_from bind snd].
    rewrite vset_repeat by lia. eexists; split; reflexivity.
  - now rewrite E, P.
Qed.

(** X11: degenerate inputs.  With [max_iter >= 1], a run on no observation
    and a run on no center both return from the stability test of
    iteration 0: the assignment vector is empty, or holds the initial 0 of
    [best_cluster] in every entry, and equals the zero-initialised previous
    one.  The centers are returned as they were given and [iter] is 0. *)
Theorem degenerate_inputs_return_at_once
        {T : Type} `{Num T} `{NumOrd T}
        (rng : nat -> Z) (s : nat) (X C : matrix T) (max_iter : Z) (tol : T) :
  (1 <= max_iter)%Z ->
  kmeans_cpp_loop rng s [] C max_iter tol =
  Ok (mkResult C [] 0 ConvergedByStability, s) /\
  kmeans_cpp_loop rng s X [] max_iter tol =
  Ok (mkResult [] (repeat 0%Z (nrow X)) 0 ConvergedByStability, s).
Proof.
  intros Hm. unfold kmeans_cpp_loop.
  destruct (Z.to_nat max_iter) as [|fuel] eqn:Ef; [lia|]. split.
  - reflexivity.
  - cbn [iterate]. rewrite find_closest_centers_no_center. cbn [bind].
    replace (all_eq (repeat 0%Z (nrow X)) (repeat 0%Z (nrow X))) with true
      by (symmetry; now apply all_eq_true).
    reflexivity.
Qed.

Lemma degenerate_inputs_return_at_once_witness :
  kmeans_cpp_loop (fun _ => 0%Z) 0 [] C_two_groups 10 0x1p-30%float =
  Ok (mkResult C_two_groups [] 0 ConvergedByStability, 0) /\
  kmeans_cpp_loop (fun _ => 0%Z) 0 X_two_groups [] 10 0x1p-30%float =
  Ok (mkResult [] (repeat 0%Z (nrow X_two_groups)) 0 ConvergedByStability, 0).
Proof.
  apply (degenerate_inputs_return_at_once
           (fun _ => 0%Z) 0 X_two_groups C_two_groups 10 0x1p-30%float).
  lia.
Defined.

(** A loop whose body leaves the bounds at step [m] leaves the bounds. *)
Lemma for_from_fault_at {S : Type} (body : nat -> S -> res S) :
  forall count lo m s sm,
    m < count ->
    for_from lo m body s = Ok sm -> body (lo + m) sm = Fault ->
    for_from lo count body s = Fault.
Proof.
  induction count as [|c IH]; intros lo m s sm Hm E F; [lia|].
  destruct m as [|m].
  - simpl in E. injection E as ->. rewrite Nat.add_0_r in F.
    simpl. now rewrite F.
  - simpl in E. apply bind_ok in E. destruct E as (s1 & E1 & E).
    simpl. rewrite E1. cbn [bind].
    apply (IH (Datatypes.S lo) m s1 sm); [lia | exact E |].
    now replace (Datatypes.S lo + m) with (lo + Datatypes.S m) by lia.
Qed.

Section Widths.
Context {T : Type} `{Num T} `{NumOrd T}.

(** The distance loop runs over the columns of [X]: on a center row that is
    shorter it reads [centers(j, l)] with [l] outside the row. *)
Lemma sq_dist_loop_narrow (X C : matrix T) (d d' i j : nat) (x c : list T) :
  nth_error X i = Some x -> nth_error C j = Some c ->
  length x = d -> length c = d' -> d' < d ->
  sq_dist_loop X C d i j = Fault.
Proof.
  intros Ex Ec Lx Lc Hd. unfold sq_dist_loop, for_.
  destruct (for_from_inv (fun (_ : nat) (_ : T) => True)
              (fun l dist =>
                 xv <- mget X i l ;;
                 cv <- mget C j l ;;
                 Ok (add dist (mul (sub xv cv) (sub xv cv))))
              d' 0 zero I) as (sm & E & _).
  - intros l st Hl _.
    destruct (nth_error_lt x l) as (a & Ea); [lia|].
    destruct (nth_error_lt c l) as (b & Eb); [lia|].
    rewrite (mget_row l Ex), (mget_row l Ec).
    apply vget_ok in Ea. apply vget_ok in Eb. rewrite Ea, Eb. cbn [bind].
    eexists; split; [reflexivity | exact I].
  - apply (for_from_fault_at _ d 0 d' zero sm Hd E). cbn [Nat.add].
    destruct (nth_error_lt x d') as (a & Ea); [lia|].
    rewrite (mget_row d' Ex), (mget_row d' Ec).
    apply vget_ok in Ea. rewrite Ea. cbn [bind]. unfold vget.
    replace (nth_error c d') with (@None T); [reflexivity|].
    symmetry. apply nth_error_None. lia.
Qed.

Lemma find_closest_centers_narrow (X C : matrix T) (n k d d' : nat) :
  shaped n d X -> shaped k d' C -> 1 <= n -> 1 <= k -> d' < d ->
  find_closest_centers X C = Fault.
Proof.
  intros SX SC Hn Hk Hd. unfold find_closest_centers.
  rewrite (shaped_ncol SX Hn).
  destruct (nth_error_lt X 0) as (x & Ex); [destruct SX; lia|].
  destruct (nth_error_lt C 0) as (c & Ec); [destruct SC; lia|].
  assert (En : nrow X = Datatypes.S (n - 1)) by (destruct SX; unfold nrow; lia).
  assert (Ek : nrow C = Datatypes.S (k - 1)) by (destruct SC; unfold nrow; lia).
  rewrite En, Ek. unfold for_ at 1. cbn [for_from].
  unfold closest_loop, for_. cbn [for_from].
  rewrite (sq_dist_loop_narrow X C d d' 0 0 x c Ex Ec
             (shaped_row SX Ex) (shaped_row SC Ec) Hd).
  reflexivity.
Qed.
End Widths.

(** X12: centers that have fewer columns than the observations.  The width
    of the data is read from [X] alone (lines 11 and 40) and the width of
    [centers] is not compared with it: with at least one observation and
    one center, the distance loop reads [centers(j, l)] at a column [l] that
    [centers] does not have, in the assignment step and hence in every run
    of at least one iteration. *)
Theorem narrow_centers_leave_the_bounds
        {T : Type} `{Num T} `{NumOrd T}
        (X C : matrix T) (n k d d' : nat) :
  shaped n d X -> shaped k d' C -> 1 <= n -> 1 <= k -> d' < d ->
  find_closest_centers X C = Fault /\
  forall rng s max_iter tol,
    (1 <= max_iter)%Z -> kmeans_cpp_loop rng s X C max_iter tol = Fault.
Proof.
  intros SX SC Hn Hk Hd.
  pose proof (find_closest_centers_narrow X C n k d d' SX SC Hn Hk Hd) as E.
  split; [exact E|].
  intros rng s max_iter tol Hm. unfold kmeans_cpp_loop.
  destruct (Z.to_nat max_iter) as [|fuel] eqn:Ef; [lia|].
  cbn [iterate]. now rewrite E.
Qed.

Lemma narrow_centers_leave_the_bounds_witness :
  find_closest_centers X_two_groups [[0%float]; [10%float]] = Fault /\
  forall rng s max_iter tol,
    (1 <= max_iter)%Z ->
    kmeans_cpp_loop rng s X_two_groups [[0%float]; [10%float]] max_iter tol =
    Fault.
Proof.
  apply (narrow_centers_leave_the_bounds
           X_two_groups [[0%float]; [10%float]] 4 2 2 1).
  - split; [reflexivity | repeat constructor].
  - split; [reflexivity | repeat constructor].
  - lia.
  - lia.
  - lia.
Defined.

(** ** A run that starts on a fixed point *)

(** X13: if the assignment step on the initial centers gives a vector [A]
    that is not all zeros, and the update step on [A] gives the initial
    centers back, then every run of at least one iteration returns these
    centers and [A] with [iter = 1], whatever [tol] and [max_iter] are: the
    tolerance test of iteration 0 returns [0 + 1], the stability test of
    iteration 1 returns 1, and with [max_iter = 1] the return after the loop
    reports [max_iter]. *)
Theorem fixed_point_returns_after_one_iteration
        {T : Type} `{Num T} `{NumOrd T}
        (rng : nat -> Z) (s s1 : nat) (X C : matrix T) (n k d : nat)
        (A : list Z) (max_iter : Z) (tol : T) :
  shaped n d X -> 1 <= n -> shaped k d C ->
  find_closest_centers X C = Ok A ->
  A <> repeat 0%Z n ->
  update_step X rng A n k d s = Ok (C, s1) ->
  (1 <= max_iter)%Z ->
  exists e,
    kmeans_cpp_loop rng s X C max_iter tol = Ok (mkResult C A 1 e, s1).
Proof.
  intros SX Hn SC EA Hne EU Hm. unfold kmeans_cpp_loop.
  assert (Ek : nrow C = k) by (now destruct SC).
  assert (En : nrow X = n) by (now destruct SX).
  rewrite Ek, En, (shaped_ncol SX Hn).
  destruct (Z.to_nat max_iter) as [|fuel] eqn:Ef; [lia|].
  cbn [iterate]. rewrite EA. cbn [bind].
  destruct (all_eq A (repeat 0%Z n)) eqn:Eall;
    [apply all_eq_true in Eall; contradiction|].
  rewrite EU. cbn [bind].
  rewrite (center_change_ok C C k d SC SC). cbn [bind].
  destruct (ltb (change C C) tol).
  - eexists. reflexivity.
  - destruct fuel as [|fuel].
    + cbn [iterate]. replace max_iter with 1%Z by lia. eexists. reflexivity.
    + cbn [iterate]. rewrite EA. cbn [bind].
      replace (all_eq A A) with true by (symmetry; now apply all_eq_true).
      eexists. reflexivity.
Qed.

Lemma fixed_point_returns_after_one_iteration_witness :
  exists e,
    kmeans_cpp_loop (fun _ => 0%Z) 0 X_two_groups
                    [[0; 0.5]; [10; 0.5]]%float 10 0x1p-30%float =
    Ok (mkResult [[0; 0.5]; [10; 0.5]]%float [1; 1; 2; 2]%Z 1 e, 0).
Proof.
  apply (fixed_point_returns_after_one_iteration
           (fun _ => 0%Z) 0 0 X_two_groups [[0; 0.5]; [10; 0.5]]%float 4 2 2
           [1; 1; 2; 2]%Z 10 0x1p-30%float).
  - split; [reflexivity | repeat constructor].
  - lia.
  - split; [reflexivity | repeat constructor].
  - reflexivity.
  - discriminate.
  - reflexivity.
  - lia.
Defined.

(** ** Coordinates that are not finite *)

Lemma is_finite_spec (v : float) :
  is_finite v =
  match Prim2SF v with
  | S754_zero _ | S754_finite _ _ _ => true
  | S754_infinity _ | S754_nan => false
  end.
Proof.
  unfold is_finite, is_nan, is_infinity.
  rewrite !FloatAxioms.eqb_spec, abs_spec.
  change (Prim2SF infinity) with (S754_infinity false).
  destruct (Prim2SF v) as [s|s| |s m e]; try destruct s; simpl; auto;
    unfold SFeqb; simpl; rewrite Z.compare_refl;
    change (PosDef.Pos.compare_cont Eq m m) with (m ?= m)%positive;
    now rewrite Pos.compare_refl.
Qed.

(** The square of a difference with an operand that is not finite is not
    finite: it is [+Inf] or a NaN. *)
Lemma square_not_finite (v c : float) :
  is_finite v = false \/ is_finite c = false ->
  is_finite ((v - c) * (v - c))%float = false.
Proof.
  rewrite !is_finite_spec, FloatAxioms.mul_spec, FloatAxioms.sub_spec.
  unfold SF64mul, SF64sub.
  destruct (Prim2SF v) as [sv|sv| |sv mv ev];
    destruct (Prim2SF c) as [sc|sc| |sc mc ec];
    intros [E|E]; try discriminate E; try reflexivity;
      destruct sv, sc; reflexivity.
Qed.

Lemma add_not_finite (a b : float) :
  nonneg a -> nonneg b ->
  is_finite a = false \/ is_finite b = false ->
  is_finite (a + b)%float = false.
Proof.
  unfold nonneg. rewrite !is_finite_spec, FloatAxioms.add_spec.
  unfold SF64add.
  destruct (Prim2SF a) as [sa|sa| |sa ma ea];
    destruct (Prim2SF b) as [sb|sb| |sb mb eb]; simpl;
      intros Ha Hb [E|E]; subst; try discriminate E; reflexivity.
Qed.

Lemma fold_sq_not_finite (l : list (float * float)) :
  forall acc,
    nonneg acc ->
    is_finite acc = false \/
    Exists (fun p => is_finite (fst p) = false \/ is_finite (snd p) = false) l ->
    is_finite (fold_left sq_step l acc) = false.
Proof.
  induction l as [|p l IH]; intros acc Ha Hex.
  - destruct Hex as [E|E]; [exact E | inversion E].
  - cbn [fold_left]. apply IH.
    + unfold sq_step. apply add_nonneg; [assumption | apply square_nonneg].
    + destruct Hex as [E|E].
      * left. unfold sq_step. apply add_not_finite; auto. apply square_nonneg.
      * inversion E as [p' l' Hp|p' l' Hl]; subst; [left | now right].
        unfold sq_step. apply add_not_finite; auto; [apply square_nonneg|].
        right. now apply square_not_finite.
Qed.

Lemma exists_combine_l {A B : Type} (P : A -> Prop) (u : list A) :
  forall v : list B,
    length u = length v -> Exists P u ->
    Exists (fun p => P (fst p)) (combine u v).
Proof.
  induction u as [|a u IH]; intros [|b v] L E; simpl in L; try discriminate;
    inversion E; subst; cbn [combine].
  - now left.
  - right. apply IH; auto.
Qed.

Lemma exists_combine_r {A B : Type} (P : B -> Prop) (u : list A) :
  forall v : list B,
    length u = length v -> Exists P v ->
    Exists (fun p => P (snd p)) (combine u v).
Proof.
  induction u as [|a u IH]; intros [|b v] L E; simpl in L; try discriminate;
    inversion E; subst; cbn [combine].
  - now left.
  - right. apply IH; auto.
Qed.

Lemma sq_dist_not_finite (x c : list float) :
  length x = length c ->
  Exists (fun v => is_finite v = false) x \/
  Exists (fun v => is_finite v = false) c ->
  is_finite (sq_dist x c) = false.
Proof.
  intros L Hex. unfold sq_dist. apply fold_sq_not_finite; [exact nonneg_zero|].
  right. destruct Hex as [E|E].
  - apply (exists_combine_l _ x c L) in E.
    eapply Exists_impl; [|exact E]. intros p Hp. now left.
  - apply (exists_combine_r _ x c L) in E.
    eapply Exists_impl; [|exact E]. intros p Hp. now right.
Qed.

Lemma nearest_not_finite (C : matrix float) (d : nat) (x : list float) :
  Forall (fun c => length c = d) C -> length x = d ->
  Exists (fun v => is_finite v = false) x ->
  nearest C x = 0%Z.
Proof.
  intros FC Lx Hx. unfold nearest. rewrite scan_misses; [reflexivity|].
  intros c Hin. rewrite Forall_forall in FC. specialize (FC c Hin).
  change ((sq_dist x c <? infinity)%float = false).
  rewrite (below_infinity_finite _ (sq_dist_nonneg x c)).
  apply sq_dist_not_finite; [lia | now left].
Qed.

(** X14: an observation with a coordinate that is not finite (a NaN, which
    is also how R stores [NA], or an infinity) is assigned 0 by the
    assignment step, whatever the centers are: none of its squared
    distances is finite, so none compares below [R_PosInf]. *)
Theorem non_finite_observation_gets_zero
        (X C : matrix float) (n k d : nat) (A : list Z)
        (i : nat) (x : list float) :
  shaped n d X -> shaped k d C ->
  find_closest_centers X C = Ok A ->
  nth_error X i = Some x ->
  Exists (fun v => is_finite v = false) x ->
  nth_error A i = Some 0%Z.
Proof.
  intros SX SC E Ex Hx.
  rewrite (find_closest_centers_ok X C n k d SX SC) in E. injection E as <-.
  rewrite nth_error_map, Ex. cbn [option_map]. f_equal.
  apply (nearest_not_finite C d x); [now destruct SC | | exact Hx].
  exact (shaped_row SX Ex).
Qed.

Lemma non_finite_observation_gets_zero_witness :
  nth_error [1; 0]%Z 1 = Some 0%Z.
Proof.
  apply (non_finite_observation_gets_zero
           [[0; 0]; [1; nan]]%float C_two_groups 2 2 2 [1; 0]%Z 1
           [1; nan]%float).
  - split; [reflexivity | repeat constructor].
  - split; [reflexivity | repeat constructor].
  - reflexivity.
  - reflexivity.
  - right. left. reflexivity.
Defined.

(** X15: a center with a coordinate that is not finite is never named by
    the assignment step: its index does not occur in the assignment vector,
    so its cluster has no member. *)
Theorem non_finite_center_is_never_named
        (X C : matrix float) (n k d : nat) (A : list Z)
        (j : nat) (c : list float) :
  shaped n d X -> shaped k d C ->
  find_closest_centers X C = Ok A ->
  nth_error C j = Some c ->
  Exists (fun v => is_finite v = false) c ->
  ~ In (Z.of_nat j + 1)%Z A /\ members X A j = [].
Proof.
  intros SX SC E Ec Hc.
  rewrite (find_closest_centers_ok X C n k d SX SC) in E. injection E as <-.
  assert (Hnin : ~ In (Z.of_nat j + 1)%Z (map (nearest C) X)).
  { intros Hin. apply in_map_iff in Hin. destruct Hin as (x & Hn & Hx).
    destruct (nearest_first_minimum x C) as (Hsel & _ & _).
    unfold nearest in Hn.
    change (@pos_inf float float_NumOrd) with infinity in Hn.
    rewrite Hn in Hsel.
    destruct Hsel as [(H0 & _)|(c0 & _ & Ec0 & _ & Hfin)]; [lia|].
    replace (Z.to_nat (Z.of_nat j + 1 - 1)) with j in Ec0 by lia.
    assert (c0 = c) as -> by congruence.
    rewrite sq_dist_not_finite in Hfin; [discriminate Hfin | | now right].
    destruct (In_nth_error _ _ Hx) as (i & Ex).
    rewrite (shaped_row SX Ex), (shaped_row SC Ec). reflexivity. }
  split; [exact Hnin|].
  unfold members. rewrite filter_none; [reflexivity|].
  intros (x, a) Hin. cbn [snd].
  destruct (Z.eqb_spec a (Z.of_nat j + 1)) as [->|]; [|reflexivity].
  exfalso. apply Hnin. eapply in_combine_r; eauto.
Qed.

Lemma non_finite_center_is_never_named_witness :
  ~ In (Z.of_nat 1 + 1)%Z [1; 1; 1; 1]%Z /\
  members X_two_groups [1; 1; 1; 1]%Z 1 = [].
Proof.
  apply (non_finite_center_is_never_named
           X_two_groups [[0; 0]; [infinity; 0]]%float 4 2 2 [1; 1; 1; 1]%Z 1
           [infinity; 0]%float).
  - split; [reflexivity | repeat constructor].
  - split; [reflexivity | repeat constructor].
  - reflexivity.
  - reflexivity.
  - left. reflexivity.
Defined.

(** X16: one observation with a coordinate that is not finite stops the
    engine.  A run of at least one iteration on such data either leaves the
    bounds in its first update step, or returns from the stability test of
    iteration 0 with the initial centers, a cluster vector of zeros and
    [iter = 0]: no center is ever updated. *)
Theorem non_finite_observation_stops_the_engine
        (rng : nat -> Z) (s : nat) (X C : matrix float) (n k d : nat)
        (max_iter : Z) (tol : float) (r : result float) (s' : nat) :
  shaped n d X -> 1 <= n -> shaped k d C ->
  Exists (Exists (fun v => is_finite v = false)) X ->
  (1 <= max_iter)%Z ->
  kmeans_cpp_loop rng s X C max_iter tol = Ok (r, s') ->
  r = mkResult C (repeat 0%Z n) 0 ConvergedByStability /\ s' = s.
Proof.
  intros SX Hn SC HX Hm E. unfold kmeans_cpp_loop in E.
  assert (Ek : nrow C = k) by (now destruct SC).
  assert (En : nrow X = n) by (now destruct SX).
  rewrite Ek, En, (shaped_ncol SX Hn) in E.
  destruct (Z.to_nat max_iter) as [|fuel] eqn:Ef; [lia|].
  cbn [iterate] in E.
  rewrite (find_closest_centers_ok X C n k d SX SC) in E. cbn [bind] in E.
  destruct (all_eq (map (nearest C) X) (repeat 0%Z n)) eqn:Eall.
  - apply all_eq_true in Eall. rewrite Eall in E. injection E as <- <-.
    now split.
  - exfalso. apply bind_ok in E. destruct E as ((N, s1) & EU & _).
    apply update_step_range in EU;
      [|rewrite length_map; now destruct SX].
    apply Exists_exists in HX. destruct HX as (x & Hx & Hv).
    rewrite Forall_forall in EU.
    specialize (EU (nearest C x) (in_map _ _ _ Hx)).
    rewrite (nearest_not_finite C d x) in EU; [lia | now destruct SC | | exact Hv].
    destruct (In_nth_error _ _ Hx) as (i & Ex). exact (shaped_row SX Ex).
Qed.

Lemma non_finite_observation_stops_the_engine_witness :
  mkResult [[0%float]] [0%Z] 0 ConvergedByStability =
  mkResult [[0%float]] (repeat 0%Z 1) 0 ConvergedByStability /\ 0 = 0.
Proof.
  apply (non_finite_observation_stops_the_engine
           (fun _ => 0%Z) 0 [[nan]] [[0%float]] 1 1 1 5 0x1p-30%float
           (mkResult [[0%float]] [0%Z] 0 ConvergedByStability) 0).
  - split; [reflexivity | repeat constructor].
  - lia.
  - split; [reflexivity | repeat constructor].
  - left. left. reflexivity.
  - lia.
  - reflexivity.
Defined.

(** ** The counts of the update step *)

Lemma sum_app (u v : list Z) :
  fold_right Z.add 0%Z (u ++ v) =
  (fold_right Z.add 0%Z u + fold_right Z.add 0%Z v)%Z.
Proof. induction u as [|a u IH]; simpl; lia. Qed.

Lemma sum_repeat_zero (k : nat) : fold_right Z.add 0%Z (repeat 0%Z k) = 0%Z.
Proof. induction k as [|k IH]; simpl; lia. Qed.

(** X17: the counts of lines 64-72.  Whenever the accumulation loop stays
    in bounds, the vector [counts] has [k] entries, none negative, and they
    sum to [n_obs]: every observation is counted in exactly one cluster. *)
Theorem counts_sum_to_n_obs
        {T : Type} `{Num T} (X : matrix T) (A : list Z) (n k d : nat)
        (sums : matrix T) (counts : list Z) :
  accumulate X A n d (zeros zero k d, repeat 0%Z k) = Ok (sums, counts) ->
  length counts = k /\
  Forall (fun c => (0 <= c)%Z) counts /\
  fold_right Z.add 0%Z counts = Z.of_nat n.
Proof.
  unfold accumulate, for_. intros E.
  apply (for_from_inv_ok
           (fun j (st : matrix T * list Z) =>
              length (snd st) = k /\
              Forall (fun c => (0 <= c)%Z) (snd st) /\
              fold_right Z.add 0%Z (snd st) = Z.of_nat j)) in E.
  - exact E.
  - cbn [snd]. split; [apply repeat_length|]. split.
    + apply Forall_forall. intros c Hc. apply repeat_spec in Hc. lia.
    + apply sum_repeat_zero.
  - intros j (nc, cs) st1 _ (Lc & Fc & Sc) E1. cbn [snd] in *.
    apply bind_ok in E1. destruct E1 as (a & _ & E1).
    apply bind_ok in E1. destruct E1 as (ci & _ & E1).
    apply bind_ok in E1. destruct E1 as (c & Ec & E1).
    apply bind_ok in E1. destruct E1 as (cs' & Ec' & E1).
    apply bind_ok in E1. destruct E1 as (nc' & _ & E1).
    injection E1 as <-. cbn [snd].
    apply vset_ok in Ec'. destruct Ec' as (xs & y & ys & -> & Li & ->).
    apply vget_ok in Ec. rewrite nth_error_app2, Li, Nat.sub_diag in Ec by lia.
    injection Ec as ->.
    rewrite length_app in *. cbn [length] in *. split; [exact Lc|].
    apply Forall_app in Fc. destruct Fc as (F1 & F2).
    inversion F2 as [|c0 l0 Hc F3]; subst. split.
    + apply Forall_app. split; [exact F1|]. constructor; [lia | exact F3].
    + rewrite sum_app in *. cbn [fold_right] in *. lia.
Qed.

Lemma counts_sum_to_n_obs_witness :
  length [2; 0]%Z = 2 /\
  Forall (fun c => (0 <= c)%Z) [2; 0]%Z /\
  fold_right Z.add 0%Z [2; 0]%Z = Z.of_nat 2.
Proof.
  apply (counts_sum_to_n_obs [[0]; [1]]%float [1; 1]%Z 2 2 1 [[1]; [0]]%float
                             [2; 0]%Z).
  reflexivity.
Defined.

(** ** What [iter = 0] says *)

(** X18: a returned [iter] of 0 means that no update ran.  Only the stability
    test of iteration 0 and the return after a loop with [max_iter = 0]
    report 0, and both return the initial centers and a cluster vector of
    zeros, without a value taken from the random source. *)
Theorem iter_zero_means_no_update
        {T : Type} `{Num T} `{NumOrd T}
        (rng : nat -> Z) (s : nat) (X C : matrix T) (max_iter : Z) (tol : T)
        (r : result T) (s' : nat) :
  kmeans_cpp_loop rng s X C max_iter tol = Ok (r, s') ->
  res_iter r = 0%Z ->
  res_centers r = C /\ res_cluster r = repeat 0%Z (nrow X) /\ s' = s.
Proof.
  unfold kmeans_cpp_loop. intros E Hit.
  destruct (Z.to_nat max_iter) as [|fuel] eqn:Ef.
  - simpl in E. injection E as <- <-. auto.
  - cbn [iterate] in E. apply bind_ok in E. destruct E as (A' & _ & E).
    destruct (all_eq A' (repeat 0%Z (nrow X))) eqn:Eall.
    + apply all_eq_true in Eall. injection E as <- <-. auto.
    + exfalso.
      apply bind_ok in E. destruct E as ((N, s1) & _ & E).
      apply bind_ok in E. destruct E as (cc & _ & E).
      destruct (ltb cc tol).
      * injection E as <- <-. discriminate Hit.
      * apply iterate_iter_range in E. destruct (res_exit r); lia.
Qed.

Lemma iter_zero_means_no_update_witness :
  res_centers (mkResult [[0%float]; [1%float]] [0; 0]%Z 0 ConvergedByStability) =
  [[0%float]; [1%float]] /\
  res_cluster (mkResult [[0%float]; [1%float]] [0; 0]%Z 0 ConvergedByStability) =
  repeat 0%Z (nrow [[huge]; [(- huge)%float]]) /\
  0 = 0.
Proof.
  apply (iter_zero_means_no_update
           (fun _ => 0%Z) 0 [[huge]; [(- huge)%float]] [[0%float]; [1%float]]
           5 0%float
           (mkResult [[0%float]; [1%float]] [0; 0]%Z 0 ConvergedByStability) 0).
  - reflexivity.
  - reflexivity.
Defined.

(** ** Centers that are wider than the observations *)

Section Wide.
Context {T : Type} `{Num T} `{NumOrd T}.

Lemma sq_dist_loop_wide (X C : matrix T) (d i j : nat) (x c : list T) :
  nth_error X i = Some x -> nth_error C j = Some c ->
  length x = d -> d <= length c ->
  sq_dist_loop X C d i j = Ok (sq_dist x c).
Proof.
  intros Ex Ec Lx Lc. unfold sq_dist_loop, for_.
  loop_inv (fun l dist => dist = fold_left sq_step (firstn l (combine x c)) zero)
    as (r & E & P).
  - reflexivity.
  - intros l st Hl ->.
    destruct (nth_error_lt x l) as (a & Ea); [lia|].
    destruct (nth_error_lt c l) as (b & Eb); [lia|].
    rewrite (mget_row l Ex), (mget_row l Ec).
    apply vget_ok in Ea as Ea'. apply vget_ok in Eb as Eb'.
    rewrite Ea', Eb'. cbn [bind]. eexists; split; [reflexivity|].
    rewrite (firstn_snoc (nth_error_combine Ea Eb)).
    now rewrite fold_left_app.
  - rewrite E, P. simpl. rewrite firstn_all2; [reflexivity|].
    rewrite length_combine. lia.
Qed.

Lemma closest_loop_wide (X C : matrix T) (n k d d' i : nat) (x : list T) :
  shaped n d X -> shaped k d' C -> d <= d' -> nth_error X i = Some x ->
  closest_loop X C d k i = Ok (scan x C 0 (pos_inf, 0%Z)).
Proof.
  intros SX SC Hd Ex. unfold closest_loop, for_.
  loop_inv (fun j st => st = scan x (firstn j C) 0 (pos_inf, 0%Z))
    as (r & E & P).
  - reflexivity.
  - intros j st Hj ->.
    destruct (nth_error_lt C j) as (c & Ec); [destruct SC; lia|].
    destruct (scan x (firstn j C) 0 (pos_inf, 0%Z)) as (md, b) eqn:Es.
    rewrite (sq_dist_loop_wide X C d i j x c Ex Ec (shaped_row SX Ex))
      by (rewrite (shaped_row SC Ec); exact Hd).
    cbn [bind]. rewrite (firstn_snoc Ec), scan_app, Es.
    unfold scan_step. cbn [fst snd].
    rewrite length_firstn, Nat.min_l by (destruct SC; lia).
    destruct (ltb (sq_dist x c) md); eexists; split; reflexivity.
  - rewrite E, P. simpl. rewrite firstn_all2; [reflexivity|].
    destruct SC; lia.
Qed.

Lemma find_closest_centers_wide (X C : matrix T) (n k d d' : nat) :
  shaped n d X -> shaped k d' C -> d <= d' ->
  find_closest_centers X C = Ok (map (nearest C) X).
Proof.
  intros SX SC Hd. unfold find_closest_centers, for_.
  assert (Ln : nrow X = n) by (destruct SX; assumption).
  assert (Lk : nrow C = k) by (destruct SC; assumption).
  rewrite Ln, Lk. unfold nrow in Ln, Lk.
  loop_inv (fun i A => A = map (nearest C) (firstn i X) ++ repeat 0%Z (n - i))
    as (r & E & P).
  - simpl. now rewrite Nat.sub_0_r.
  - intros i st Hi ->.
    destruct (nth_error_lt X i) as (x & Ex); [lia|].
    rewrite (shaped_ncol SX) by lia.
    rewrite (closest_loop_wide X C n k d d' i x SX SC Hd Ex). cbn [bind].
    replace (n - i) with (S (n - S i)) by lia. cbn [repeat].
    pose proof (vset_app (map (nearest C) (firstn i X)) (repeat 0%Z (n - S i))
                         0%Z (snd (scan x C 0 (pos_inf, 0%Z)))) as V.
    rewrite length_map, length_firstn, Nat.min_l in V by lia.
    rewrite V. eexists; split; [reflexivity|]. unfold nearest.
    rewrite (firstn_snoc Ex), map_app, <- app_assoc. reflexivity.
  - rewrite E, P. simpl. rewrite Nat.sub_diag, firstn_all2 by lia.
    simpl. now rewrite app_nil_r.
Qed.

Lemma scan_firstn (x : list T) (cs : matrix T) :
  forall j st,
    scan x (map (firstn (length x)) cs) j st = scan x cs j st.
Proof.
  induction cs as [|c cs IH]; intros j st; [reflexivity|].
  cbn [map scan]. rewrite IH. f_equal.
  unfold scan_step, sq_dist. now rewrite <- combine_firstn_l.
Qed.
End Wide.

(** X19: centers that have more columns than the observations.  The loops
    run over the columns of [X] (lines 11 and 20): the assignment step stays
    in bounds and returns what it returns on the centers cut to the width
    of [X]. *)
Theorem extra_columns_of_centers_are_ignored
        {T : Type} `{Num T} `{NumOrd T}
        (X C : matrix T) (n k d d' : nat) :
  shaped n d X -> shaped k d' C -> d <= d' ->
  exists A,
    find_closest_centers X C = Ok A /\
    find_closest_centers X (map (firstn d) C) = Ok A.
Proof.
  intros SX SC Hd. exists (map (nearest C) X). split.
  - exact (find_closest_centers_wide X C n k d d' SX SC Hd).
  - assert (SC' : shaped k d (map (firstn d) C)).
    { destruct SC as (L & F). split; [now rewrite length_map|].
      rewrite Forall_forall in *. intros c' Hc'.
      apply in_map_iff in Hc'. destruct Hc' as (c & <- & Hc).
      rewrite length_firstn, (F c Hc). lia. }
    rewrite (find_closest_centers_ok X _ n k d SX SC'). f_equal.
    apply map_ext_in. intros x Hx. unfold nearest.
    destruct SX as (_ & FX). rewrite Forall_forall in FX.
    rewrite <- (FX x Hx). now rewrite scan_firstn.
Qed.

Lemma extra_columns_of_centers_are_ignored_witness :
  exists A,
    find_closest_centers [[0]; [1]; [9]]%float [[0; 7]; [10; -3]]%float = Ok A /\
    find_closest_centers [[0]; [1]; [9]]%float
                         (map (firstn 1) [[0; 7]; [10; -3]]%float) = Ok A.
Proof.
  apply (extra_columns_of_centers_are_ignored
           [[0]; [1]; [9]]%float [[0; 7]; [10; -3]]%float 3 2 1 2).
  - split; [reflexivity | repeat constructor].
  - split; [reflexivity | repeat constructor].
  - lia.
Defined.
